(** * A copy-on-write trie: [Trie::Get], [Trie::Put] and [Trie::Remove]

    Shallow embedding of [src/primer/trie.cpp].  Nodes live in a store
    indexed by locations (the [shared_ptr]s of the source); the three
    operations are written in a small state-and-fault monad over that
    store, statement by statement as in the source.  A purely functional
    tree is the abstraction against which the store-level operations are
    proved correct; the properties of the specification are then stated
    on the store-level operations.

    What the model leaves out:
    - the object behind [value_] is kept in the node itself rather than
      behind a second pointer; it is never written after [Put] made it;
    - nodes are never freed, the store only grows;
    - signed overflow of an [int] is undefined behaviour and stops the
      computation with a fault; [static_cast<int>] of a size above
      [INT_MAX] is not one: it wraps, and the operations go on with the
      wrapped value as the compiled code does. *)

From stdpp Require Import gmap strings list fin_maps.
From Stdlib Require Import ZArith Ascii.

Local Open Scope Z_scope.
Local Open Scope nat_scope.

(** ** Values and their run-time types *)

(** The template parameter [T] of [Get] and [Put].  The constructors are
    the types for which the source instantiates the templates. *)
Inductive vtype : Type :=
  | TUInt32 | TUInt64 | TString | TInteger | TMoveBlocked.

(** A stored object together with its dynamic type.  [VInteger] is a
    [std::unique_ptr<uint32_t>], which may be null. *)
Inductive value : Type :=
  | VUInt32 (n : Z)
  | VUInt64 (n : Z)
  | VString (s : string)
  | VInteger (p : option Z)
  | VMoveBlocked.

Definition type_of (v : value) : vtype :=
  match v with
  | VUInt32 _ => TUInt32
  | VUInt64 _ => TUInt64
  | VString _ => TString
  | VInteger _ => TInteger
  | VMoveBlocked => TMoveBlocked
  end.

#[global] Instance vtype_eq_dec : EqDecision vtype.
Proof. solve_decision. Defined.

#[global] Instance value_eq_dec : EqDecision value.
Proof. solve_decision. Defined.

(** ** Nodes, the store and the trie handle *)

(** A [std::shared_ptr<const TrieNode>] that is not null. *)
Abbreviation loc := positive (only parsing).

(** Modelled from the spec: the classes [TrieNode] and
    [TrieNodeWithValue<T>] are declared in [primer/trie.h].  A node holds
    a mapping from byte to child and the flag [is_value_node_]; a value
    node additionally holds [value_].  [value_ = None] stands for the
    dynamic type [TrieNode], [value_ = Some v] for
    [TrieNodeWithValue<type_of v>]. *)
Record TrieNode : Type := mkTrieNode {
  children_ : gmap ascii loc;
  is_value_node_ : bool;
  value_ : option value
}.

(** Modelled from the spec: [TrieNode()] and [TrieNode(children)]. *)
Definition TrieNode_new (children : gmap ascii loc) : TrieNode :=
  mkTrieNode children false None.

(** Modelled from the spec: [TrieNodeWithValue<T>(value)] and
    [TrieNodeWithValue<T>(children, value)]. *)
Definition TrieNodeWithValue_new (children : gmap ascii loc) (v : value)
  : TrieNode :=
  mkTrieNode children true (Some v).

(** Modelled from the spec: [Clone()] is virtual; it returns a new node of
    the same dynamic type with the same children mapping and the same
    value. *)
Definition Clone (n : TrieNode) : TrieNode :=
  match value_ n with
  | Some v => TrieNodeWithValue_new (children_ n) v
  | None => TrieNode_new (children_ n)
  end.

Abbreviation heap := (gmap positive TrieNode) (only parsing).

(** The handle: [root_] is a possibly null pointer. *)
Record Trie : Type := mkTrie { root_ : option loc }.

Definition empty_trie : Trie := mkTrie None.

(** ** The monad of the embedding

    A computation reads and extends the store; [None] is a memory fault
    (dereferencing a pointer that is not allocated, indexing a vector out
    of range, a size that does not fit [int]). *)
Definition M (A : Type) : Type := heap → option (A * heap).

#[global] Instance M_ret : MRet M := λ A a h, Some (a, h).

#[global] Instance M_bind : MBind M := λ A B f m h,
  match m h with
  | Some (a, h') => f a h'
  | None => None
  end.

Definition fault {A : Type} : M A := λ _, None.

(** [std::make_shared]: a new node at a location not in use. *)
Definition make_shared (n : TrieNode) : M loc := λ h,
  let l := fresh (dom h) in Some (l, <[l := n]> h).

(** Reading through a pointer. *)
Definition deref (l : loc) : M TrieNode := λ h,
  match h !! l with
  | Some n => Some (n, h)
  | None => None
  end.

Definition with_children (f : gmap ascii loc → gmap ascii loc)
    (n : TrieNode) : TrieNode :=
  mkTrieNode (f (children_ n)) (is_value_node_ n) (value_ n).

(** Updating [p->children_] in place. *)
Definition modify_children (p : loc)
    (f : gmap ascii loc → gmap ascii loc) : M unit := λ h,
  match h !! p with
  | Some n => Some (tt, <[p := with_children f n]> h)
  | None => None
  end.

(** [xs[i]]. *)
Definition at_index {A : Type} (xs : list A) (i : nat) : M A :=
  match xs !! i with
  | Some x => mret x
  | None => fault
  end.

Definition INT_MAX : Z := 2147483647.
Definition INT_MIN : Z := -2147483648.

(** The [int] with the low 32 bits of [z], in two's complement. *)
Definition wrap_int (z : Z) : Z := ((z + 2 ^ 31) mod 2 ^ 32 - 2 ^ 31)%Z.

(** [static_cast<int>(n)] for a [size_t] n: the value itself when it
    fits, and otherwise the value modulo 2^32 (what C++20 requires and
    what compilers did before, where it was implementation-defined). *)
Definition static_cast_int (n : nat) : M Z := mret (wrap_int (Z.of_nat n)).

(** The result [z] of an addition or subtraction on [int]: overflow is
    undefined behaviour, a fault. *)
Definition int_arith (z : Z) : M Z :=
  if decide (INT_MIN ≤ z ≤ INT_MAX)%Z then mret z else fault.

(** [for (i = lo; i < lo + count; ++i) acc = body(i, acc)]. *)
Fixpoint for_up {A : Type} (lo count : nat) (body : nat → A → M A) (a : A)
  : M A :=
  match count with
  | O => mret a
  | S c => a' ← body lo a; for_up (S lo) c body a'
  end.

(** [for (i = count - 1; i >= 0; i--) acc = body(i, acc)]. *)
Fixpoint for_down {A : Type} (count : nat) (body : nat → A → M A) (a : A)
  : M A :=
  match count with
  | O => mret a
  | S i => a' ← body i a; for_down i body a'
  end.

(** ** [Trie::Get] *)

(** The loop of [Get] (and of [Remove]): follow [key] from [cur].
    [Some None] is the early [return nullptr]. *)
Fixpoint Get_walk (h : heap) (cur : loc) (key : list ascii)
  : option (option loc) :=
  match key with
  | [] => Some (Some cur)
  | ch :: key' =>
      match h !! cur with
      | Some n =>
          match children_ n !! ch with
          | Some c => Get_walk h c key'
          | None => Some None
          end
      | None => None
      end
  end.

(** [std::dynamic_pointer_cast<const TrieNodeWithValue<T>>(cur)] followed
    by [node->value_.get()]. *)
Definition dynamic_cast_value (T : vtype) (n : TrieNode) : option value :=
  match value_ n with
  | Some v => if decide (type_of v = T) then Some v else None
  | None => None
  end.

(** [Get<T>(key)]: the outer option is the fault, the inner one the
    pointer returned ([None] for [nullptr]). *)
Definition Get (T : vtype) (t : Trie) (key : list ascii) (h : heap)
  : option (option value) :=
  match root_ t with
  | None => Some None
  | Some root =>
      match Get_walk h root key with
      | Some (Some cur) =>
          match h !! cur with
          | Some n =>
              if is_value_node_ n then Some (dynamic_cast_value T n)
              else Some None
          | None => None
          end
      | Some None => Some None
      | None => None
      end
  end.

(** ** [Trie::Put]

    In the last branch [index] is an [int] incremented once per node of
    [nodes], and the bound of the [while] loop is computed in [int]. *)

(** The first loop of [Put] on a non-empty trie: descend while a child
    exists, pushing every node entered.  Returns [nodes] and the
    iterator [it], kept as the part of the key not consumed. *)
Fixpoint Put_walk (cur : loc) (it : list ascii) (nodes : list loc)
  : M (list loc * list ascii) :=
  match it with
  | [] => mret (nodes, [])
  | ch :: it' =>
      n ← deref cur;
      match children_ n !! ch with
      | None => mret (nodes, it)
      | Some c => Put_walk c it' (nodes ++ [c])
      end
  end.

Definition Put (t : Trie) (key : list ascii) (v : value) : M Trie :=
  if decide (key = []) then
    match root_ t with
    | Some r =>
        root ← deref r;
        new_root ← make_shared (TrieNodeWithValue_new (children_ root) v);
        mret (mkTrie (Some new_root))
    | None =>
        new_root ← make_shared (TrieNodeWithValue_new ∅ v);
        mret (mkTrie (Some new_root))
    end
  else
    match root_ t with
    | None =>
        new_root ← make_shared (TrieNode_new ∅);
        _ ← for_up 0 (length key) (λ i curr,
              ch ← at_index key i;
              child ← make_shared
                        (if decide (i ≠ length key - 1) then TrieNode_new ∅
                         else TrieNodeWithValue_new ∅ v);
              _ ← modify_children curr (λ _, ∅);
              _ ← modify_children curr (<[ch := child]>);
              mret child) new_root;
        mret (mkTrie (Some new_root))
    | Some r =>
        '(nodes, it) ← Put_walk r key [];
        root ← deref r;
        new_root ← make_shared (Clone root);
        if decide (it = []) then
          _ ← for_up 0 (length key) (λ i parent,
                ch ← at_index key i;
                old ← at_index nodes i;
                n ← deref old;
                new_node ← make_shared
                             (if decide (i ≠ length key - 1) then Clone n
                              else TrieNodeWithValue_new (children_ n) v);
                _ ← modify_children parent (<[ch := new_node]>);
                mret new_node) new_root;
          mret (mkTrie (Some new_root))
        else
          parent ← for_up 0 (length nodes) (λ i parent,
                     ch ← at_index key i;
                     old ← at_index nodes i;
                     n ← deref old;
                     new_node ← make_shared (Clone n);
                     _ ← modify_children parent (<[ch := new_node]>);
                     mret new_node) new_root;
          index ← int_arith (Z.of_nat (length nodes));
          size ← static_cast_int (length key);
          bound ← int_arith (size - 1);
          parent ← for_up (Z.to_nat index) (Z.to_nat (bound - index))
                     (λ index parent,
                        ch ← at_index key index;
                        child ← make_shared (TrieNode_new ∅);
                        _ ← modify_children parent (<[ch := child]>);
                        mret child) parent;
          ch ← at_index key (length key - 1);
          leaf ← make_shared (TrieNodeWithValue_new ∅ v);
          _ ← modify_children parent (<[ch := leaf]>);
          mret (mkTrie (Some new_root))
    end.

(** ** [Trie::Remove]

    The loop that rebuilds the path counts down an [int] from
    [static_cast<int>(nodes.size()) - 1]. *)

(** The first loop of [Remove]: push the node left, then descend.
    [None] is the early [return Trie(root_)]. *)
Fixpoint Remove_walk (cur : loc) (key : list ascii) (nodes : list loc)
  : M (option (list loc * loc)) :=
  match key with
  | [] => mret (Some (nodes, cur))
  | ch :: key' =>
      n ← deref cur;
      match children_ n !! ch with
      | None => mret None
      | Some c => Remove_walk c key' (nodes ++ [cur])
      end
  end.

(** [cur->children_.empty() && !cur->is_value_node_]. *)
Definition is_dead (n : TrieNode) : bool :=
  bool_decide (children_ n = ∅) && negb (is_value_node_ n).

Definition Remove (t : Trie) (key : list ascii) : M Trie :=
  match root_ t with
  | None => mret (mkTrie None)
  | Some r =>
      walked ← Remove_walk r key [];
      match walked with
      | None => mret (mkTrie (Some r))
      | Some (nodes, cur) =>
          n ← deref cur;
          if negb (is_value_node_ n) then mret (mkTrie (Some r))
          else
            cur ← make_shared (TrieNode_new (children_ n));
            size ← static_cast_int (length nodes);
            start ← int_arith (size - 1);
            cur ← for_down (Z.to_nat (start + 1)) (λ i cur,
                    ch ← at_index key i;
                    old ← at_index nodes i;
                    n ← deref old;
                    new_parent ← make_shared (Clone n);
                    c ← deref cur;
                    _ ← (if is_dead c
                         then modify_children new_parent (delete ch)
                         else modify_children new_parent (<[ch := cur]>));
                    mret new_parent) cur;
            c ← deref cur;
            if is_dead c then mret (mkTrie None)
            else mret (mkTrie (Some cur))
      end
  end.

(** Reading the store without changing it. *)
Definition observe {A : Type} (f : heap → A) : M A := λ h, Some (f h, h).

(** Running a computation from the empty store. *)
Definition run {A : Type} (m : M A) : option A := fst <$> m ∅.

Definition key_of (s : string) : list ascii := String.list_ascii_of_string s.

(** ** The abstraction: trees as values

    [Nil] is the absent child (and the empty trie); a [Node] carries the
    value stored at it, if any, and its children. *)
Inductive tree : Type :=
  | Nil
  | Node (val : option value) (ch : ascii → tree).

(** The value stored at the root of [t]. *)
Definition tval (t : tree) : option value :=
  match t with
  | Nil => None
  | Node v _ => v
  end.

(** The child of [t] along [c]. *)
Definition child (t : tree) (c : ascii) : tree :=
  match t with
  | Nil => Nil
  | Node _ ch => ch c
  end.

(** The node reached by [key], [Nil] when the path leaves the tree. *)
Fixpoint subtree (t : tree) (key : list ascii) : tree :=
  match key with
  | [] => t
  | c :: key' => subtree (child t c) key'
  end.

Definition upd (f : ascii → tree) (c : ascii) (t : tree) : ascii → tree :=
  λ c', if decide (c' = c) then t else f c'.

(** What a typed lookup sees at [key]. *)
Definition tget (T : vtype) (t : tree) (key : list ascii) : option value :=
  match tval (subtree t key) with
  | Some v => if decide (type_of v = T) then Some v else None
  | None => None
  end.

(** The tree after [Put]: the path of [key] is rebuilt, its last node
    holds [v] and keeps its children, everything off the path stays. *)
Fixpoint put (t : tree) (key : list ascii) (v : value) : tree :=
  match key with
  | [] => Node (Some v) (child t)
  | c :: key' => Node (tval t) (upd (child t) c (put (child t c) key' v))
  end.

(** Replace the subtree at [path]. *)
Fixpoint graft (t : tree) (path : list ascii) (t' : tree) : tree :=
  match path with
  | [] => t'
  | c :: path' => Node (tval t) (upd (child t) c (graft (child t c) path' t'))
  end.

Definition is_Nil (t : tree) : bool :=
  match t with
  | Nil => true
  | Node _ _ => false
  end.

Definition childless (ch : ascii → tree) : bool :=
  forallb (λ n, is_Nil (ch (ascii_of_nat n))) (seq 0 256).

(** A node without children and without a value. *)
Definition dead (t : tree) : bool :=
  match t with
  | Node None ch => childless ch
  | _ => false
  end.

Definition prune (t : tree) : tree := if dead t then Nil else t.

(** The node rebuilt by [Remove] at the root of [t], before the test
    that may drop it. *)
Fixpoint strip_node (t : tree) (key : list ascii) : tree :=
  match key with
  | [] => Node None (child t)
  | c :: key' =>
      Node (tval t) (upd (child t) c (prune (strip_node (child t c) key')))
  end.

Definition strip (t : tree) (key : list ascii) : tree :=
  prune (strip_node t key).

(** The tree after [Remove]: unchanged when [key] has no value. *)
Definition remove (t : tree) (key : list ascii) : tree :=
  match tval (subtree t key) with
  | Some _ => strip t key
  | None => t
  end.

(** ** Representation of a tree in the store *)

(** The flag of a node says whether it is a [TrieNodeWithValue]. *)
Definition node_ok (n : TrieNode) : Prop :=
  is_value_node_ n = bool_decide (is_Some (value_ n)).

Inductive repr (h : heap) : option loc → tree → Prop :=
  | repr_Nil : repr h None Nil
  | repr_Node l n ch :
      h !! l = Some n →
      node_ok n →
      (∀ c, repr h (children_ n !! c) (ch c)) →
      repr h (Some l) (Node (value_ n) ch).

(** A trie handle that denotes some tree: every pointer it reaches is
    allocated, and flags agree with dynamic types. *)
Definition trie_wf (h : heap) (t : Trie) : Prop :=
  ∃ tr, repr h (root_ t) tr.

(** The node [n] has the value and the children of [t]. *)
Definition shallow (h : heap) (n : TrieNode) (t : tree) : Prop :=
  node_ok n ∧ value_ n = tval t ∧ ∀ c, repr h (children_ n !! c) (child t c).

(** ** The vector [nodes] of [Put] *)

(** [ns] are the nodes met when following [ks] through [children]. *)
Fixpoint chain (h : heap) (children : gmap ascii loc) (ks : list ascii)
    (ns : list loc) : Prop :=
  match ns with
  | [] => True
  | o :: ns' =>
      match ks with
      | [] => False
      | c :: ks' =>
          children !! c = Some o
          ∧ ∃ no, h !! o = Some no ∧ chain h (children_ no) ks' ns'
      end
  end.

(** ** Dead nodes *)

(** No node of the tree is without children and without a value. *)
Definition no_dead (t : tree) : Prop :=
  ∀ key, dead (subtree t key) = false.

(** ** Dead nodes in the store *)

(** The node reached from the root of [t] by [p], if there is one, has a
    child or a value. *)
Definition live_at (h : heap) (t : Trie) (p : list ascii) : Prop :=
  ∀ r cur n,
    root_ t = Some r → Get_walk h r p = Some (Some cur) → h !! cur = Some n →
    is_dead n = false.

(** No node reachable from the root of [t] is dead. *)
Definition minimal (h : heap) (t : Trie) : Prop := ∀ p, live_at h t p.

(** ** Checking a store *)

(** An executable test that the pointer [ol] denotes a tree of depth at
    most [fuel]. *)
Fixpoint repr_check (fuel : nat) (h : heap) (ol : option loc) : bool :=
  match ol with
  | None => true
  | Some l =>
      match fuel with
      | O => false
      | S fuel' =>
          match h !! l with
          | None => false
          | Some n =>
              bool_decide (node_ok n)
              && forallb (λ p, repr_check fuel' h (Some p.2))
                   (map_to_list (children_ n))
          end
      end
  end.

(** The tree read off the store, down to depth [fuel]. *)
Fixpoint tree_of (fuel : nat) (h : heap) (ol : option loc) : tree :=
  match fuel, ol with
  | S fuel', Some l =>
      match h !! l with
      | Some n => Node (value_ n) (λ c, tree_of fuel' h (children_ n !! c))
      | None => Nil
      end
  | _, _ => Nil
  end.

(** A small store used to instantiate the theorems below: the tries
    [{a ↦ 1}] and [{a ↦ 1, ab ↦ 2}] built by two calls of [Put]. *)
Definition demo1 : Trie * gmap positive TrieNode :=
  default (empty_trie, ∅) (Put empty_trie (key_of "a") (VUInt32 1) ∅).

Definition demo2 : Trie * gmap positive TrieNode :=
  default (empty_trie, ∅) (Put demo1.1 (key_of "ab") (VUInt32 2) demo1.2).

Definition demo_a : Trie := demo1.1.
Definition demo_ab : Trie := demo2.1.
Definition demo_heap : gmap positive TrieNode := demo2.2.

(** The key has no value in the trie: the trie is empty, or the walk
    along the key finds a byte without a child, or the node at the end
    of the walk is not a value node. *)
Definition missing (h : heap) (t : Trie) (key : list ascii) : Prop :=
  root_ t = None
  ∨ ∃ r, root_ t = Some r
         ∧ (Get_walk h r key = Some None
            ∨ ∃ cur n, Get_walk h r key = Some (Some cur)
                       ∧ h !! cur = Some n ∧ is_value_node_ n = false).

(** The round trip [Put(k, v)] then [Remove(k)]: both return, and the
    trie obtained answers every [Get] as the receiver did. *)
Definition Put_Remove_roundtrip (h : heap) (t : Trie) (k : list ascii)
    (v : value) : Prop :=
  ∃ t1 h1 t2 h2,
    Put t k v h = Some (t1, h1)
    ∧ Remove t1 k h1 = Some (t2, h2)
    ∧ ∀ T k', Get T t2 k' h2 = Get T t k' h.

(** The tries that can be built: starting from the empty trie, by [Put]
    and [Remove] with keys whose size fits [int], in a store that other
    operations may extend in between. *)
Inductive reachable : gmap positive TrieNode → Trie → Prop :=
  | reach_empty h : reachable h empty_trie
  | reach_Put h t k v t' h' :
      reachable h t →
      (Z.of_nat (length k) ≤ INT_MAX)%Z →
      Put t k v h = Some (t', h') →
      reachable h' t'
  | reach_Remove h t k t' h' :
      reachable h t →
      (Z.of_nat (length k) ≤ INT_MAX)%Z →
      Remove t k h = Some (t', h') →
      reachable h' t'
  | reach_later h h' t :
      reachable h t → h ⊆ h' → reachable h' t.

(** Two tries, each in its store, answer every [Get] alike. *)
Definition same_lookups (h1 : heap) (t1 : Trie) (h2 : heap) (t2 : Trie)
  : Prop :=
  ∀ T key, Get T t1 key h1 = Get T t2 key h2.

(** ** Sharing of nodes between versions *)

(** The walk along [q] below a node whose children mapping is [M]. *)
Definition walk_below (h : heap) (M : gmap ascii loc) (q : list ascii)
  : option (option loc) :=
  match q with
  | [] => Some None
  | c :: q' =>
      match M !! c with
      | Some o => Get_walk h o q'
      | None => Some None
      end
  end.

(** In [h'] the node [l] heads a copy of the path [p] made over the
    store [h0]: what a walk leaving [p] reaches from [l] is what it
    reached in [h0] below the mapping [M], the very same node; and the
    nodes on [p] itself are not nodes of [h0]. *)
Definition copied (h0 h' : heap) (l : loc) (M : gmap ascii loc)
    (p : list ascii) : Prop :=
  (∀ q, ¬ q `prefix_of` p → Get_walk h' l q = walk_below h0 M q)
  ∧ (∀ q, q `prefix_of` p →
          ∃ l', Get_walk h' l q = Some (Some l') ∧ h0 !! l' = None).

(** [Ml] is, in [h0], the children mapping found along [c] below [M]
    (the empty one when there is no child along [c]). *)
Definition compat (h0 : heap) (M : gmap ascii loc) (c : ascii)
    (Ml : gmap ascii loc) : Prop :=
  ∀ q, q ≠ [] → walk_below h0 Ml q = walk_below h0 M (c :: q).

(** Every pointer of [M] denotes a tree in [h]. *)
Definition wf_children (h : heap) (M : gmap ascii loc) : Prop :=
  ∀ c, ∃ t, repr h (M !! c) t.

(** ** Keys longer than [INT_MAX] *)

(** What the last step of [Put] builds when the loop that extends the
    path did not run: a childless value node hung below [t] along [c],
    in place of whatever was there. *)
Definition overwrite (t : tree) (c : ascii) (v : value) : tree :=
  Node (tval t) (upd (child t) c (Node (Some v) (λ _, Nil))).

(** A key of 2^31 + 1 zero bytes. *)
Definition long_key : list ascii := replicate (Z.to_nat 2147483649) zero.

(** ** Facts about the monad and its primitives *)

Lemma bind_eq {A B : Type} (m : M A) (f : A → M B) (h h1 : heap) (a : A) :
  m h = Some (a, h1) → (m ≫= f) h = f a h1.
Proof. intros H. unfold mbind, M_bind. by rewrite H. Qed.

Lemma deref_eq (h : heap) (l : loc) (n : TrieNode) :
  h !! l = Some n → deref l h = Some (n, h).
Proof. intros H. unfold deref. by rewrite H. Qed.

Lemma modify_children_eq (h : heap) (p : loc) (n : TrieNode) f :
  h !! p = Some n →
  modify_children p f h = Some (tt, <[p := with_children f n]> h).
Proof. intros H. unfold modify_children. by rewrite H. Qed.

Lemma at_index_eq {A : Type} (xs : list A) (i : nat) (x : A) (h : heap) :
  xs !! i = Some x → at_index xs i h = Some (x, h).
Proof. intros H. unfold at_index. by rewrite H. Qed.

Lemma wrap_int_small (z : Z) :
  (INT_MIN ≤ z ≤ INT_MAX)%Z → wrap_int z = z.
Proof.
  unfold INT_MIN, INT_MAX, wrap_int. intros H.
  rewrite Z.mod_small; lia.
Qed.

Lemma static_cast_int_eq (n : nat) (h : heap) :
  (Z.of_nat n ≤ INT_MAX)%Z → static_cast_int n h = Some (Z.of_nat n, h).
Proof.
  intros H. unfold static_cast_int, mret, M_ret.
  rewrite wrap_int_small; [done|]. unfold INT_MIN. lia.
Qed.

Lemma int_arith_eq (z : Z) (h : heap) :
  (INT_MIN ≤ z ≤ INT_MAX)%Z → int_arith z h = Some (z, h).
Proof. intros H. unfold int_arith. by rewrite decide_True. Qed.

Lemma for_up_S {A : Type} (body : nat → A → M A) (lo count : nat) (a : A)
    (h : heap) :
  for_up lo (S count) body a h
  = match body lo a h with
    | Some (a', h') => for_up (S lo) count body a' h'
    | None => None
    end.
Proof. reflexivity. Qed.

Lemma for_up_snoc {A : Type} (body : nat → A → M A) (count : nat) :
  ∀ (lo : nat) (a : A) (h : heap),
    for_up lo (S count) body a h
    = match for_up lo count body a h with
      | Some (a', h') => body (lo + count) a' h'
      | None => None
      end.
Proof.
  induction count as [|c IH]; intros lo a h.
  - rewrite for_up_S. simpl. rewrite Nat.add_0_r.
    destruct (body lo a h) as [[a' h']|]; reflexivity.
  - rewrite (for_up_S body lo (S c)), (for_up_S body lo c).
    destruct (body lo a h) as [[a1 h1]|]; [|reflexivity].
    rewrite IH. replace (S lo + c) with (lo + S c) by lia. reflexivity.
Qed.

Lemma fresh_lookup (h : heap) : h !! fresh (dom h) = None.
Proof. apply not_elem_of_dom, is_fresh. Qed.

Lemma insert_fresh_subseteq (h : heap) (n : TrieNode) :
  h ⊆ <[fresh (dom h) := n]> h.
Proof. apply insert_subseteq, fresh_lookup. Qed.

(** ** Facts about trees *)

Lemma subtree_Nil (key : list ascii) : subtree Nil key = Nil.
Proof. induction key; simpl; auto. Qed.

Lemma subtree_app (t : tree) (p q : list ascii) :
  subtree t (p ++ q) = subtree (subtree t p) q.
Proof. revert t. induction p; intros t; simpl; auto. Qed.

Lemma upd_eq (f : ascii → tree) (c : ascii) (t : tree) : upd f c t c = t.
Proof. unfold upd. by rewrite decide_True. Qed.

Lemma upd_ne (f : ascii → tree) (c c' : ascii) (t : tree) :
  c' ≠ c → upd f c t c' = f c'.
Proof. intros H. unfold upd. by rewrite decide_False. Qed.

Lemma childless_spec (ch : ascii → tree) :
  childless ch = true ↔ ∀ c, ch c = Nil.
Proof.
  unfold childless. rewrite forallb_forall. split.
  - intros H c. specialize (H (nat_of_ascii c)).
    rewrite ascii_nat_embedding in H.
    destruct (ch c); [done|]. discriminate H.
    apply in_seq. pose proof (nat_ascii_bounded c). lia.
  - intros H n _. by rewrite H.
Qed.

Lemma dead_spec (t : tree) :
  dead t = true ↔ ∃ ch, t = Node None ch ∧ ∀ c, ch c = Nil.
Proof.
  split.
  - destruct t as [|[v|] ch]; simpl; try discriminate.
    intros H. exists ch. split; [done|]. by apply childless_spec.
  - intros (ch & -> & H). simpl. by apply childless_spec.
Qed.

(** ** Facts about the representation *)

Lemma repr_mono (h h' : heap) (ol : option loc) (t : tree) :
  h ⊆ h' → repr h ol t → repr h' ol t.
Proof.
  intros Hsub H. induction H; econstructor; eauto using lookup_weaken.
Qed.

Lemma repr_None_inv (h : heap) (t : tree) : repr h None t → t = Nil.
Proof. by inversion 1. Qed.

Lemma repr_Some_inv (h : heap) (l : loc) (t : tree) :
  repr h (Some l) t →
  ∃ n ch, t = Node (value_ n) ch ∧ h !! l = Some n ∧ shallow h n t.
Proof.
  inversion 1; subst. eexists _, _. repeat split; eauto.
Qed.

Lemma repr_intro (h : heap) (l : loc) (n : TrieNode) (v : option value)
    (ch : ascii → tree) :
  h !! l = Some n → node_ok n → value_ n = v →
  (∀ c, repr h (children_ n !! c) (ch c)) →
  repr h (Some l) (Node v ch).
Proof. intros ? ? <- ?. by econstructor. Qed.

Lemma shallow_new_Nil (h : heap) : shallow h (TrieNode_new ∅) Nil.
Proof.
  repeat split. intros c. simpl. rewrite lookup_empty. constructor.
Qed.

Lemma shallow_Clone (h : heap) (n : TrieNode) (t : tree) :
  shallow h n t → shallow h (Clone n) t.
Proof.
  intros (Hok & Hv & Hc). unfold Clone.
  destruct (value_ n) eqn:E; repeat split; simpl; auto.
Qed.

Lemma Get_walk_repr (h : heap) (key : list ascii) :
  ∀ (l : loc) (t : tree),
    repr h (Some l) t →
    ∃ ol, Get_walk h l key = Some ol ∧ repr h ol (subtree t key).
Proof.
  induction key as [|c key IH]; intros l t H; simpl.
  - eauto.
  - inversion H as [|? n ch Hl Hok Hch]; subst. rewrite Hl.
    specialize (Hch c). simpl.
    destruct (children_ n !! c) as [l'|] eqn:E.
    + by apply IH.
    + exists None. split; [done|]. apply repr_None_inv in Hch as ->.
      rewrite subtree_Nil. constructor.
Qed.

Lemma node_ok_value (n : TrieNode) (T : vtype) :
  node_ok n →
  (if is_value_node_ n then dynamic_cast_value T n else None)
  = match value_ n with
    | Some v => if decide (type_of v = T) then Some v else None
    | None => None
    end.
Proof.
  unfold node_ok, dynamic_cast_value. intros ->.
  destruct (value_ n); reflexivity.
Qed.

(** [Get] computes the typed lookup of the tree the trie denotes. *)
Lemma Get_repr (h : heap) (t : Trie) (tr : tree) (T : vtype)
    (key : list ascii) :
  repr h (root_ t) tr → Get T t key h = Some (tget T tr key).
Proof.
  intros H. unfold Get, tget. destruct (root_ t) as [r|].
  - destruct (Get_walk_repr h key r tr H) as (ol & -> & Hol).
    destruct ol as [cur|].
    + inversion Hol as [|? n ch Hl Hok Hch]; subst. rewrite Hl. simpl.
      rewrite <- (node_ok_value n T Hok).
      destruct (is_value_node_ n); reflexivity.
    + apply repr_None_inv in Hol as ->. reflexivity.
  - apply repr_None_inv in H as ->. by rewrite subtree_Nil.
Qed.

(** ** Descending loops

    Every loop of [Put] that walks down the key has the same shape: at
    index [i] it allocates a node for the child along [key[i]], links it
    into [parent] and moves to it.  The nodes it writes to are never in
    the store [h0] the operation started from.  What the loop leaves
    behind is a context: whatever tree the last node is later made to
    hold, [parent] holds the tree with that one grafted in at the path
    walked. *)
Section descend.
Variable h0 : heap.
Variable key : list ascii.
Variable body : nat → loc → M loc.
Variable Inv : nat → TrieNode → Prop.
Variable hi : nat.

Hypothesis body_ok : ∀ i ch parent (h : heap) np tp,
  i < hi → key !! i = Some ch → h0 ⊆ h → h !! parent = Some np →
  shallow h0 np tp → Inv i np →
  ∃ nl,
    body i parent h
    = Some (fresh (dom h),
            <[parent := with_children (<[ch := fresh (dom h)]>) np]>
              (<[fresh (dom h) := nl]> h))
    ∧ shallow h0 nl (child tp ch) ∧ Inv (S i) nl.

Hypothesis hi_le : hi ≤ length key.

Lemma descend_ok : ∀ count i parent (h : heap) np tp,
  i + count ≤ hi →
  h0 ⊆ h → h !! parent = Some np → h0 !! parent = None →
  shallow h0 np tp → Inv i np →
  ∃ last (h1 : heap) nlast,
    for_up i count body parent h = Some (last, h1)
    ∧ h0 ⊆ h1
    ∧ h1 !! last = Some nlast ∧ h0 !! last = None
    ∧ (last = parent ∨ h !! last = None)
    ∧ (∀ l, l ≠ parent → is_Some (h !! l) → h1 !! l = h !! l)
    ∧ shallow h0 nlast (subtree tp (take count (drop i key)))
    ∧ Inv (i + count) nlast
    ∧ ∀ (h' : heap) t',
        h0 ⊆ h' →
        (∀ l, l ≠ last → is_Some (h1 !! l) → h' !! l = h1 !! l) →
        repr h' (Some last) t' →
        repr h' (Some parent) (graft tp (take count (drop i key)) t').
Proof.
  induction count as [|c IH]; intros i parent h np tp Hi Hsub Hp Hp0 Hsh HI.
  - exists parent, h, np. rewrite Nat.add_0_r. simpl.
    split_and!; auto.
  - destruct (lookup_lt_is_Some_2 key i) as [ch Hch]; [lia|].
    rewrite (drop_S _ _ _ Hch). simpl take.
    destruct (body_ok i ch parent h np tp) as (nl & Hbody & Hshl & HIl);
      auto; [lia|].
    set (l := fresh (dom h)) in *.
    assert (Hl : h !! l = None) by apply fresh_lookup.
    assert (Hlp : l ≠ parent) by congruence.
    set (np' := with_children (<[ch := l]>) np) in *.
    set (h2 := <[parent := np']> (<[l := nl]> h)) in *.
    assert (Hsub2 : h0 ⊆ h2).
    { apply insert_subseteq_r; [done|].
      etrans; [exact Hsub|]. by apply insert_subseteq. }
    assert (Hl0 : h0 !! l = None) by (eapply lookup_weaken_None; eauto).
    assert (Hh2l : h2 !! l = Some nl).
    { unfold h2. rewrite lookup_insert_ne by done. apply lookup_insert_eq. }
    assert (Hh2p : h2 !! parent = Some np') by apply lookup_insert_eq.
    destruct (IH (S i) l h2 nl (child tp ch))
      as (last & h1 & nlast & Hrun & Hsub1 & Hlast & Hlast0 & Hnew & Hframe
          & Hshlast & HIlast & Hctx); auto; [lia|].
    exists last, h1, nlast.
    assert (Hlastp : last ≠ parent).
    { destruct Hnew as [->|Hnone]; [done|]. congruence. }
    assert (Hh1p : h1 !! parent = Some np').
    { rewrite Hframe; eauto. }
    split_and!; auto.
    + rewrite for_up_S, Hbody. exact Hrun.
    + right. destruct Hnew as [->|Hnone]; [done|].
      unfold h2 in Hnone.
      destruct (decide (last = l)) as [->|]; [done|].
      by rewrite !lookup_insert_ne in Hnone.
    + intros l' Hl'p Hsome.
      assert (l' ≠ l) by (intros ->; rewrite Hl in Hsome; by destruct Hsome).
      rewrite Hframe; auto.
      * unfold h2. by rewrite !lookup_insert_ne.
      * unfold h2. by rewrite !lookup_insert_ne.
    + by replace (i + S c) with (S i + c) by lia.
    + intros h' t' Hsub' Hframe' Hrepr.
      apply (repr_intro h' parent np').
      * rewrite Hframe'; eauto.
      * apply Hsh.
      * apply Hsh.
      * intros c'. simpl. destruct (decide (c' = ch)) as [->|Hne].
        -- rewrite lookup_insert_eq, upd_eq. by apply Hctx.
        -- rewrite lookup_insert_ne, upd_ne by done.
           eapply repr_mono; [exact Hsub'|]. apply Hsh.
Qed.
End descend.

Lemma graft_put (v : value) (k : list ascii) :
  ∀ (p : list ascii) (t : tree),
    graft t p (put (subtree t p) k v) = put t (p ++ k) v.
Proof.
  induction p as [|c p IH]; intros t; simpl; [done|]. by rewrite IH.
Qed.

(** The step that ends every path of [Put]: a value node is allocated
    and linked into [last] along [ch]. *)
Lemma final_link (h0 h : heap) (last : loc) (nlast : TrieNode) (tl : tree)
    (ch : ascii) (chm : gmap ascii loc) (v : value) :
  h0 ⊆ h → h !! last = Some nlast → h0 !! last = None →
  shallow h0 nlast tl →
  (∀ c, repr h0 (chm !! c) (child (child tl ch) c)) →
  let l := fresh (dom h) in
  let h' := <[last := with_children (<[ch := l]>) nlast]>
              (<[l := TrieNodeWithValue_new chm v]> h) in
  h0 ⊆ h'
  ∧ repr h' (Some last) (put tl [ch] v)
  ∧ ∀ l', l' ≠ last → is_Some (h !! l') → h' !! l' = h !! l'.
Proof.
  intros Hsub Hlast Hlast0 Hsh Hchm l h'.
  assert (Hl : h !! l = None) by apply fresh_lookup.
  assert (Hne : l ≠ last) by congruence.
  assert (Hsub' : h0 ⊆ h').
  { apply insert_subseteq_r; [done|].
    etrans; [exact Hsub|]. by apply insert_subseteq. }
  split_and!; [done| |].
  - apply (repr_intro h' last (with_children (<[ch := l]>) nlast)).
    + apply lookup_insert_eq.
    + apply Hsh.
    + apply Hsh.
    + intros c. simpl. destruct (decide (c = ch)) as [->|Hc].
      * rewrite lookup_insert_eq, upd_eq.
        apply (repr_intro h' l (TrieNodeWithValue_new chm v)); try done.
        -- unfold h'. rewrite lookup_insert_ne by done.
           apply lookup_insert_eq.
        -- intros c. eapply repr_mono; [exact Hsub'|]. apply Hchm.
      * rewrite lookup_insert_ne, upd_ne by done.
        eapply repr_mono; [exact Hsub'|]. apply Hsh.
  - intros l' Hl' Hsome.
    assert (l' ≠ l) by (intros ->; rewrite Hl in Hsome; by destruct Hsome).
    unfold h'. by rewrite !lookup_insert_ne.
Qed.

Lemma children_Clone (n : TrieNode) : children_ (Clone n) = children_ n.
Proof. unfold Clone. by destruct (value_ n). Qed.

Lemma Put_walk_spec (h : heap) :
  ∀ (it : list ascii) (cur : loc) (nodes : list loc) (n : TrieNode)
    (t : tree),
    h !! cur = Some n → shallow h n t →
    ∃ ns,
      Put_walk cur it nodes h = Some ((nodes ++ ns, drop (length ns) it), h)
      ∧ length ns ≤ length it
      ∧ chain h (children_ n) it ns
      ∧ (length ns = length it
         ∨ ∃ c, it !! length ns = Some c
                ∧ child (subtree t (take (length ns) it)) c = Nil).
Proof.
  induction it as [|ch it IH]; intros cur nodes n t Hcur Hsh.
  - exists []. simpl. rewrite app_nil_r. split_and!; auto.
  - simpl. rewrite (bind_eq _ _ _ _ _ (deref_eq _ _ _ Hcur)).
    destruct Hsh as (Hok & Hv & Hch). pose proof (Hch ch) as Hc.
    destruct (children_ n !! ch) as [c|] eqn:E.
    + apply repr_Some_inv in Hc as (nc & chc & Heq & Hlc & Hshc).
      destruct (IH c (nodes ++ [c]) nc (child t ch) Hlc Hshc)
        as (ns & Hrun & Hlen & Hchain & Hend).
      exists (c :: ns). rewrite Hrun, <- app_assoc. simpl.
      split_and!; auto; [lia| |].
      * eauto.
      * destruct Hend as [Hend|(c' & Hc' & Hnil)]; [left; lia|].
        right. eauto.
    + exists []. simpl. rewrite app_nil_r. split_and!; auto; [lia|].
      right. exists ch. split; [done|]. by apply repr_None_inv in Hc.
Qed.

Ltac mstep H := rewrite (bind_eq _ _ _ _ _ H).

Lemma with_children_twice f g (n : TrieNode) :
  with_children f (with_children g n) = with_children (λ m, f (g m)) n.
Proof. reflexivity. Qed.

Lemma shallow_child_None (h : heap) (n : TrieNode) (t : tree) (c : ascii) :
  shallow h n t → children_ n !! c = None → child t c = Nil.
Proof.
  intros (_ & _ & H) E. specialize (H c). rewrite E in H.
  by apply repr_None_inv in H.
Qed.

Lemma shallow_child_Nil (h : heap) (n : TrieNode) (t : tree) (c : ascii) :
  shallow h n t → child t c = Nil → children_ n !! c = None.
Proof.
  intros (_ & _ & H) E. specialize (H c). rewrite E in H.
  destruct (children_ n !! c); [inversion H|done].
Qed.

(** The body of the loops of [Put] that copy the nodes of the old path. *)
Lemma clone_body_ok (h0 : heap) (key : list ascii) (nodes : list loc)
    (sel : nat → TrieNode → TrieNode) (hi : nat) :
  hi ≤ length nodes →
  (∀ i n, i < hi → sel i n = Clone n) →
  ∀ i ch parent (h : heap) np tp,
    i < hi → key !! i = Some ch → h0 ⊆ h → h !! parent = Some np →
    shallow h0 np tp →
    chain h0 (children_ np) (drop i key) (drop i nodes) →
    ∃ nl,
      (ch ← at_index key i;
       old ← at_index nodes i;
       n ← deref old;
       new_node ← make_shared (sel i n);
       _ ← modify_children parent (<[ch := new_node]>);
       mret new_node) h
      = Some (fresh (dom h),
              <[parent := with_children (<[ch := fresh (dom h)]>) np]>
                (<[fresh (dom h) := nl]> h))
      ∧ shallow h0 nl (child tp ch)
      ∧ chain h0 (children_ nl) (drop (S i) key) (drop (S i) nodes).
Proof.
  intros Hhi Hsel i ch parent h np tp Hi Hch Hsub Hp Hsh Hchain.
  destruct (lookup_lt_is_Some_2 nodes i) as [old Hold]; [lia|].
  rewrite (drop_S _ _ _ Hch), (drop_S _ _ _ Hold) in Hchain.
  destruct Hchain as (Hc & no & Hno & Hrest).
  assert (Hshno : shallow h0 no (child tp ch)).
  { destruct Hsh as (_ & _ & H). specialize (H ch). rewrite Hc in H.
    apply repr_Some_inv in H as (n' & ? & _ & Hn' & Hsh'). congruence. }
  exists (Clone no). split_and!.
  - mstep (at_index_eq key i ch h Hch).
    mstep (at_index_eq nodes i old h Hold).
    mstep (deref_eq h old no (lookup_weaken _ _ _ _ Hno Hsub)).
    rewrite Hsel by done.
    assert (Hfp : fresh (dom h) ≠ parent).
    { intros E. pose proof (fresh_lookup h) as F. congruence. }
    unfold mbind at 1, M_bind at 1, make_shared at 1. simpl.
    erewrite (bind_eq (modify_children _ _)); [reflexivity|].
    apply modify_children_eq. by rewrite lookup_insert_ne.
  - by apply shallow_Clone.
  - by rewrite children_Clone.
Qed.

(** The body of the loop of [Put] that extends the path below the old
    trie. *)
Lemma extend_body_ok (h0 : heap) (key : list ascii) :
  ∀ i ch parent (h : heap) np tp,
    key !! i = Some ch → h0 ⊆ h → h !! parent = Some np →
    shallow h0 np tp →
    (∀ c, key !! i = Some c → children_ np !! c = None) →
    ∃ nl,
      (ch ← at_index key i;
       child ← make_shared (TrieNode_new ∅);
       _ ← modify_children parent (<[ch := child]>);
       mret child) h
      = Some (fresh (dom h),
              <[parent := with_children (<[ch := fresh (dom h)]>) np]>
                (<[fresh (dom h) := nl]> h))
      ∧ shallow h0 nl (child tp ch)
      ∧ (∀ c, key !! S i = Some c → children_ nl !! c = None).
Proof.
  intros i ch parent h np tp Hch Hsub Hp Hsh Hnone.
  exists (TrieNode_new ∅). split_and!.
  - mstep (at_index_eq key i ch h Hch).
    assert (Hfp : fresh (dom h) ≠ parent).
    { intros E. pose proof (fresh_lookup h) as F. congruence. }
    unfold mbind at 1, M_bind at 1, make_shared at 1. simpl.
    erewrite (bind_eq (modify_children _ _)); [reflexivity|].
    apply modify_children_eq. by rewrite lookup_insert_ne.
  - rewrite (shallow_child_None h0 np tp ch Hsh (Hnone ch Hch)).
    apply shallow_new_Nil.
  - intros c _. apply lookup_empty.
Qed.

(** The body of the loop of [Put] on the empty trie. *)
Lemma fresh_body_ok (h0 : heap) (key : list ascii) (v : value) (hi : nat) :
  hi ≤ length key - 1 →
  ∀ i ch parent (h : heap) np tp,
    i < hi → key !! i = Some ch → h0 ⊆ h → h !! parent = Some np →
    shallow h0 np tp →
    children_ np = ∅ →
    ∃ nl,
      (ch ← at_index key i;
       child ← make_shared
                 (if decide (i ≠ length key - 1) then TrieNode_new ∅
                  else TrieNodeWithValue_new ∅ v);
       _ ← modify_children parent (λ _, ∅);
       _ ← modify_children parent (<[ch := child]>);
       mret child) h
      = Some (fresh (dom h),
              <[parent := with_children (<[ch := fresh (dom h)]>) np]>
                (<[fresh (dom h) := nl]> h))
      ∧ shallow h0 nl (child tp ch)
      ∧ children_ nl = ∅.
Proof.
  intros Hhi i ch parent h np tp Hi Hch Hsub Hp Hsh Hempty.
  exists (TrieNode_new ∅). split_and!.
  - mstep (at_index_eq key i ch h Hch).
    rewrite decide_True by lia.
    assert (Hfp : fresh (dom h) ≠ parent).
    { intros E. pose proof (fresh_lookup h) as F. congruence. }
    unfold mbind at 1, M_bind at 1, make_shared at 1. simpl.
    erewrite (bind_eq (modify_children _ _));
      [|apply modify_children_eq; by rewrite lookup_insert_ne].
    erewrite (bind_eq (modify_children _ _));
      [|apply modify_children_eq; apply lookup_insert_eq].
    unfold mret, M_ret. rewrite insert_insert_eq, with_children_twice.
    do 3 f_equal. unfold with_children. by rewrite Hempty.
  - rewrite (shallow_child_None h0 np tp ch Hsh); [apply shallow_new_Nil|].
    rewrite Hempty. apply lookup_empty.
  - reflexivity.
Qed.

Lemma key_snoc (key : list ascii) (m : nat) (ch : ascii) :
  length key = S m → key !! m = Some ch → take m key ++ [ch] = key.
Proof.
  intros Hlen Hch. rewrite <- (take_S_r _ _ _ Hch).
  apply take_ge. lia.
Qed.

(** ** [Put] refines [put] *)

(** [Put] with the empty key: what is returned, exactly. *)
Lemma Put_empty_key_eq (h : heap) (t : Trie) (v : value) :
  (root_ t = None
   ∧ Put t [] v h
     = Some (mkTrie (Some (fresh (dom h))),
             <[fresh (dom h) := TrieNodeWithValue_new ∅ v]> h))
  ∨ (∃ r, root_ t = Some r ∧ h !! r = None ∧ Put t [] v h = None)
  ∨ (∃ r n, root_ t = Some r ∧ h !! r = Some n
      ∧ Put t [] v h
        = Some (mkTrie (Some (fresh (dom h))),
                <[fresh (dom h) := TrieNodeWithValue_new (children_ n) v]> h)).
Proof.
  unfold Put. simpl. destruct (root_ t) as [r|]; [|by left].
  right. destruct (h !! r) as [n|] eqn:E.
  - right. exists r, n. split_and!; auto.
    by mstep (deref_eq h r n E).
  - left. exists r. split_and!; auto.
    unfold mbind, M_bind, deref. by rewrite E.
Qed.

Lemma Put_refines_empty_key (h : heap) (t : Trie) (tr : tree) (v : value) :
  repr h (root_ t) tr →
  ∃ t' h', Put t [] v h = Some (t', h') ∧ h ⊆ h'
           ∧ repr h' (root_ t') (put tr [] v).
Proof.
  intros Hrepr.
  destruct (Put_empty_key_eq h t v)
    as [(Hr & ->)|[(r & Hr & Hn & _)|(r & n & Hr & Hn & ->)]];
    rewrite Hr in Hrepr.
  - eexists _, _. split_and!; [done|apply insert_fresh_subseteq|].
    apply repr_None_inv in Hrepr as ->. simpl.
    eapply repr_intro; [apply lookup_insert_eq|done|done|].
    intros c. simpl. rewrite lookup_empty. constructor.
  - apply repr_Some_inv in Hrepr as (? & ? & _ & ? & _). congruence.
  - eexists _, _. split_and!; [done|apply insert_fresh_subseteq|].
    apply repr_Some_inv in Hrepr as (n' & ch & -> & Hn' & Hsh).
    assert (n' = n) as -> by congruence. simpl.
    eapply repr_intro; [apply lookup_insert_eq|done|done|].
    intros c. simpl. eapply repr_mono; [apply insert_fresh_subseteq|].
    apply Hsh.
Qed.

Lemma Put_refines_empty_trie (h : heap) (t : Trie) (key : list ascii)
    (v : value) :
  root_ t = None → key ≠ [] →
  ∃ t' h', Put t key v h = Some (t', h') ∧ h ⊆ h'
           ∧ repr h' (root_ t') (put Nil key v).
Proof.
  intros Hroot Hkey. unfold Put. rewrite decide_False, Hroot by done.
  destruct (length key) as [|m] eqn:Hlen; [by destruct key|].
  unfold mbind at 1, M_bind at 1, make_shared at 1. cbv zeta.
  set (new_root := fresh (dom h)).
  set (ha := <[new_root := TrieNode_new ∅]> h).
  assert (Hha : h ⊆ ha) by apply insert_fresh_subseteq.
  match goal with
  | |- context [for_up 0 (S m) ?b new_root] => set (body := b)
  end.
  destruct (descend_ok h key body (λ _ n, children_ n = ∅) m) with
    (count := m) (i := 0) (parent := new_root) (h := ha)
    (np := TrieNode_new ∅) (tp := Nil)
    as (last & h1 & nlast & Hrun & Hsub1 & Hlast & Hlast0 & Hnew & Hframe
        & Hshlast & HIlast & Hctx); auto.
  { intros. subst body. cbv beta. rewrite <- Hlen.
    eapply fresh_body_ok; eauto. lia. }
  { lia. }
  { apply lookup_insert_eq. }
  { apply fresh_lookup. }
  { apply shallow_new_Nil. }
  destruct (lookup_lt_is_Some_2 key m) as [ch Hch]; [lia|].
  unfold mbind at 1, M_bind at 1. rewrite for_up_snoc, Hrun. simpl plus.
  simpl in HIlast.
  subst body. cbv beta.
  mstep (at_index_eq key m ch h1 Hch).
  rewrite decide_False by lia.
  unfold mbind at 1, M_bind at 1, make_shared at 1. cbv zeta.
  set (l := fresh (dom h1)).
  assert (Hl : h1 !! l = None) by apply fresh_lookup.
  assert (Hne : l ≠ last) by congruence.
  erewrite (bind_eq (modify_children _ _));
    [|apply modify_children_eq; by rewrite lookup_insert_ne].
  erewrite (bind_eq (modify_children _ _));
    [|apply modify_children_eq; apply lookup_insert_eq].
  unfold mret, M_ret. rewrite insert_insert_eq, with_children_twice.
  replace (with_children (λ _, <[ch := l]> ∅) nlast)
    with (with_children (<[ch := l]>) nlast)
    by (unfold with_children; by rewrite HIlast).
  destruct (final_link h h1 last nlast _ ch ∅ v Hsub1 Hlast Hlast0 Hshlast)
    as (Hsub' & Hrepr' & Hframe').
  { intros c. rewrite subtree_Nil, lookup_empty. constructor. }
  eexists _, _. split_and!; [reflexivity|exact Hsub'|].
  simpl root_. rewrite drop_0 in Hctx, Hrepr'.
  replace (put Nil key v)
    with (graft Nil (take m key) (put (subtree Nil (take m key)) [ch] v))
    by (by rewrite graft_put, key_snoc).
  apply Hctx; auto.
Qed.

Lemma Put_refines_full_path (h : heap) (r : loc) (nroot : TrieNode)
    (tr : tree) (key : list ascii) (ns : list loc) (v : value) (m : nat) :
  length key = S m → length ns = length key →
  h !! r = Some nroot → shallow h nroot tr →
  chain h (children_ nroot) key ns →
  let new_root := fresh (dom h) in
  ∃ last (h' : heap),
    for_up 0 (length key) (λ i parent,
      ch ← at_index key i;
      old ← at_index ns i;
      n ← deref old;
      new_node ← make_shared
                   (if decide (i ≠ length key - 1) then Clone n
                    else TrieNodeWithValue_new (children_ n) v);
      _ ← modify_children parent (<[ch := new_node]>);
      mret new_node) new_root (<[new_root := Clone nroot]> h)
    = Some (last, h')
    ∧ h ⊆ h' ∧ repr h' (Some new_root) (put tr key v).
Proof.
  intros Hlen Hns Hr Hsh Hchain new_root.
  set (ha := <[new_root := Clone nroot]> h).
  match goal with
  | |- context [for_up 0 _ ?b new_root] => set (body := b)
  end.
  destruct (descend_ok h key body
              (λ i np, chain h (children_ np) (drop i key) (drop i ns)) m)
    with (count := m) (i := 0) (parent := new_root) (h := ha)
         (np := Clone nroot) (tp := tr)
    as (last & h1 & nlast & Hrun & Hsub1 & Hlast & Hlast0 & Hnew & Hframe
        & Hshlast & HIlast & Hctx); auto.
  { pose (sel := λ (j : nat) (n : TrieNode),
              if decide (j ≠ length key - 1) then Clone n
              else TrieNodeWithValue_new (children_ n) v).
    intros. subst body. cbv beta.
    eapply (clone_body_ok h key ns sel m); eauto; [lia|].
    intros. unfold sel. rewrite decide_True; [done|lia]. }
  { lia. }
  { apply insert_fresh_subseteq. }
  { apply lookup_insert_eq. }
  { apply fresh_lookup. }
  { by apply shallow_Clone. }
  { by rewrite children_Clone. }
  destruct (lookup_lt_is_Some_2 key m) as [ch Hch]; [lia|].
  destruct (lookup_lt_is_Some_2 ns m) as [old Hold]; [lia|].
  simpl in HIlast. rewrite drop_0 in Hshlast, Hctx.
  rewrite (drop_S _ _ _ Hch), (drop_S _ _ _ Hold) in HIlast.
  destruct HIlast as (Hc & no & Hno & _).
  assert (Hshno : shallow h no (child (subtree tr (take m key)) ch)).
  { destruct Hshlast as (_ & _ & H). specialize (H ch). rewrite Hc in H.
    apply repr_Some_inv in H as (n' & ? & _ & Hn' & Hsh'). congruence. }
  rewrite Hlen, for_up_snoc, Hrun. simpl plus. subst body. cbv beta.
  mstep (at_index_eq key m ch h1 Hch).
  mstep (at_index_eq ns m old h1 Hold).
  mstep (deref_eq h1 old no (lookup_weaken _ _ _ _ Hno Hsub1)).
  rewrite decide_False by lia.
  unfold mbind at 1, M_bind at 1, make_shared at 1. cbv zeta.
  set (l := fresh (dom h1)).
  assert (Hl : h1 !! l = None) by apply fresh_lookup.
  assert (Hne : l ≠ last) by congruence.
  erewrite (bind_eq (modify_children _ _));
    [|apply modify_children_eq; by rewrite lookup_insert_ne].
  unfold mret, M_ret.
  destruct (final_link h h1 last nlast _ ch (children_ no) v
              Hsub1 Hlast Hlast0 Hshlast)
    as (Hsub' & Hrepr' & Hframe').
  { apply Hshno. }
  eexists _, _. split_and!; [reflexivity|exact Hsub'|].
  replace (put tr key v)
    with (graft tr (take m key) (put (subtree tr (take m key)) [ch] v))
    by (by rewrite graft_put, key_snoc).
  apply Hctx; auto.
Qed.

Lemma Put_refines_partial_path (h : heap) (r : loc) (nroot : TrieNode)
    (tr : tree) (key : list ascii) (ns : list loc) (v : value) (c : ascii) :
  (Z.of_nat (length key) ≤ INT_MAX)%Z →
  key !! length ns = Some c →
  child (subtree tr (take (length ns) key)) c = Nil →
  h !! r = Some nroot → shallow h nroot tr →
  chain h (children_ nroot) key ns →
  let new_root := fresh (dom h) in
  ∃ (h' : heap),
    (parent ← for_up 0 (length ns) (λ i parent,
                 ch ← at_index key i;
                 old ← at_index ns i;
                 n ← deref old;
                 new_node ← make_shared (Clone n);
                 _ ← modify_children parent (<[ch := new_node]>);
                 mret new_node) new_root;
     index ← int_arith (Z.of_nat (length ns));
     size ← static_cast_int (length key);
     bound ← int_arith (size - 1);
     parent ← for_up (Z.to_nat index) (Z.to_nat (bound - index))
                (λ index parent,
                   ch ← at_index key index;
                   child ← make_shared (TrieNode_new ∅);
                   _ ← modify_children parent (<[ch := child]>);
                   mret child) parent;
     ch ← at_index key (length key - 1);
     leaf ← make_shared (TrieNodeWithValue_new ∅ v);
     _ ← modify_children parent (<[ch := leaf]>);
     mret (mkTrie (Some new_root))) (<[new_root := Clone nroot]> h)
    = Some (mkTrie (Some new_root), h')
    ∧ h ⊆ h' ∧ repr h' (Some new_root) (put tr key v).
Proof.
  intros Hmax Hc Hnil Hr Hsh Hchain new_root.
  set (ha := <[new_root := Clone nroot]> h).
  pose proof (lookup_lt_Some _ _ _ Hc) as Hlt.
  set (m1 := length ns) in *.
  set (m := length key - 1).
  match goal with
  | |- context [for_up 0 _ ?b new_root] => set (body1 := b)
  end.
  destruct (descend_ok h key body1
              (λ i np, chain h (children_ np) (drop i key) (drop i ns)) m1)
    with (count := m1) (i := 0) (parent := new_root) (h := ha)
         (np := Clone nroot) (tp := tr)
    as (last1 & h1 & nlast1 & Hrun1 & Hsub1 & Hlast1 & Hlast10 & Hnew1
        & Hframe1 & Hshlast1 & _ & Hctx1); auto.
  { intros. subst body1. cbv beta.
    eapply (clone_body_ok h key ns (λ _ n, Clone n) m1); eauto. }
  { lia. }
  { apply insert_fresh_subseteq. }
  { apply lookup_insert_eq. }
  { apply fresh_lookup. }
  { by apply shallow_Clone. }
  { by rewrite children_Clone. }
  rewrite drop_0 in Hshlast1, Hctx1.
  mstep Hrun1.
  mstep (int_arith_eq (Z.of_nat m1) h1 ltac:(unfold INT_MIN; lia)).
  mstep (static_cast_int_eq (length key) h1 Hmax).
  mstep (int_arith_eq (Z.of_nat (length key) - 1) h1
           ltac:(unfold INT_MIN; lia)).
  rewrite Nat2Z.id.
  replace (Z.to_nat (Z.of_nat (length key) - 1 - Z.of_nat m1))
    with (m - m1) by (unfold m; lia).
  match goal with
  | |- context [for_up m1 _ ?b last1] => set (body2 := b)
  end.
  destruct (descend_ok h key body2
              (λ i np, ∀ c, key !! i = Some c → children_ np !! c = None) m)
    with (count := m - m1) (i := m1) (parent := last1) (h := h1)
         (np := nlast1) (tp := subtree tr (take m1 key))
    as (last2 & h2 & nlast2 & Hrun2 & Hsub2 & Hlast2 & Hlast20 & Hnew2
        & Hframe2 & Hshlast2 & HIlast2 & Hctx2); auto.
  { intros. subst body2. cbv beta. eapply extend_body_ok; eauto. }
  { unfold m. lia. }
  { unfold m. lia. }
  { intros c' Hc'. assert (c' = c) as -> by congruence.
    eapply shallow_child_Nil; eauto. }
  mstep Hrun2.
  replace (m1 + (m - m1)) with m in HIlast2 by (unfold m; lia).
  destruct (lookup_lt_is_Some_2 key m) as [ch Hch]; [unfold m; lia|].
  fold m. mstep (at_index_eq key m ch h2 Hch).
  unfold mbind at 1, M_bind at 1, make_shared at 1. cbv zeta.
  set (l := fresh (dom h2)).
  assert (Hl : h2 !! l = None) by apply fresh_lookup.
  assert (Hne : l ≠ last2) by congruence.
  erewrite (bind_eq (modify_children _ _));
    [|apply modify_children_eq; by rewrite lookup_insert_ne].
  unfold mret, M_ret.
  set (t1 := subtree tr (take m1 key)) in *.
  set (p2 := take (m - m1) (drop m1 key)) in *.
  destruct (final_link h h2 last2 nlast2 _ ch ∅ v
              Hsub2 Hlast2 Hlast20 Hshlast2)
    as (Hsub' & Hrepr' & Hframe').
  { intros c'.
    rewrite (shallow_child_None h nlast2 _ ch Hshlast2 (HIlast2 ch Hch)).
    rewrite lookup_empty. constructor. }
  eexists. split_and!; [reflexivity|exact Hsub'|].
  assert (Hkey : take m1 key ++ p2 ++ [ch] = key).
  { unfold p2. rewrite app_assoc, take_take_drop.
    replace (m1 + (m - m1)) with m by (unfold m; lia).
    apply key_snoc; [unfold m; lia|done]. }
  replace (put tr key v)
    with (graft tr (take m1 key)
            (graft t1 p2 (put (subtree t1 p2) [ch] v)))
    by (by rewrite !graft_put, Hkey).
  apply Hctx1; [done| |by apply Hctx2].
  intros l' Hl'1 Hsome.
  assert (l' ≠ last2).
  { destruct Hnew2 as [->|Hnone]; [done|].
    intros ->. rewrite Hnone in Hsome. by destruct Hsome. }
  rewrite Hframe'; [by apply Hframe2|done|].
  by rewrite Hframe2.
Qed.

Lemma Put_refines_nonempty (h : heap) (t : Trie) (r : loc) (tr : tree)
    (key : list ascii) (v : value) :
  root_ t = Some r → key ≠ [] →
  (Z.of_nat (length key) ≤ INT_MAX)%Z →
  repr h (Some r) tr →
  ∃ t' h', Put t key v h = Some (t', h') ∧ h ⊆ h'
           ∧ repr h' (root_ t') (put tr key v).
Proof.
  intros Hroot Hkey Hmax Hrepr. unfold Put.
  rewrite decide_False, Hroot by done.
  apply repr_Some_inv in Hrepr as (nroot & chr & Htr & Hr & Hsh).
  destruct (Put_walk_spec h key r [] nroot tr Hr Hsh)
    as (ns & Hwalk & Hlen & Hchain & Hend).
  change ([] ++ ns) with ns in Hwalk.
  mstep Hwalk. cbv beta iota.
  mstep (deref_eq h r nroot Hr).
  unfold mbind at 1, M_bind at 1, make_shared at 1. cbv zeta.
  destruct Hend as [Hfull|(c & Hc & Hnil)].
  - rewrite decide_True by (apply drop_ge; lia).
    destruct (length key) as [|m] eqn:Hm; [by destruct key|].
    rewrite <- Hm in *.
    destruct (Put_refines_full_path h r nroot tr key ns v m)
      as (last & h' & Hrun & Hsub & Hrepr); auto.
    mstep Hrun. eexists _, _. split_and!; [reflexivity|done|done].
  - pose proof (lookup_lt_Some _ _ _ Hc) as Hlt.
    rewrite decide_False.
    2:{ intros E. apply (f_equal length) in E.
        rewrite length_drop in E. simpl in E. lia. }
    destruct (Put_refines_partial_path h r nroot tr key ns v c)
      as (h' & Hrun & Hsub & Hrepr); auto.
    eexists _, _. split_and!; [exact Hrun|done|done].
Qed.

(** [Put] returns, keeps every node of the store it started from, and
    the trie it returns denotes [put] of the tree of the receiver. *)
Lemma Put_refines (h : heap) (t : Trie) (tr : tree) (key : list ascii)
    (v : value) :
  repr h (root_ t) tr →
  root_ t = None ∨ (Z.of_nat (length key) ≤ INT_MAX)%Z →
  ∃ t' h', Put t key v h = Some (t', h') ∧ h ⊆ h'
           ∧ repr h' (root_ t') (put tr key v).
Proof.
  intros Hrepr Hside.
  destruct (decide (key = [])) as [->|Hkey].
  { by apply Put_refines_empty_key. }
  destruct (root_ t) as [r|] eqn:Hroot.
  - destruct Hside as [|Hmax]; [done|].
    by apply (Put_refines_nonempty h t r).
  - apply repr_None_inv in Hrepr as ->.
    by apply Put_refines_empty_trie.
Qed.

(** ** [Remove] refines [remove] *)

Lemma Remove_walk_spec (h : heap) :
  ∀ (key : list ascii) (cur : loc) (nodes : list loc) (t : tree),
    repr h (Some cur) t →
    ∃ res,
      Remove_walk cur key nodes h = Some (res, h)
      ∧ match res with
        | None => subtree t key = Nil
        | Some (nodes', c) =>
            ∃ ns, nodes' = nodes ++ ns ∧ length ns = length key
                  ∧ repr h (Some c) (subtree t key)
                  ∧ ∀ i o, ns !! i = Some o →
                           repr h (Some o) (subtree t (take i key))
        end.
Proof.
  induction key as [|ch key IH]; intros cur nodes t Hrepr.
  - exists (Some (nodes, cur)). split; [done|]. exists [].
    rewrite app_nil_r. split_and!; auto. intros i o. by destruct i.
  - simpl. pose proof Hrepr as Hrepr0.
    apply repr_Some_inv in Hrepr as (n & chs & -> & Hcur & Hsh).
    mstep (deref_eq h cur n Hcur).
    destruct Hsh as (_ & _ & Hch). specialize (Hch ch). simpl in Hch.
    destruct (children_ n !! ch) as [c|] eqn:E.
    + destruct (IH c (nodes ++ [cur]) (chs ch) Hch) as (res & Hrun & Hres).
      exists res. split; [done|]. destruct res as [[nodes' c']|]; [|done].
      destruct Hres as (ns & -> & Hlen & Hc' & Hns).
      exists (cur :: ns). rewrite <- app_assoc. simpl.
      split_and!; auto. intros [|i] o Ho; simpl in *.
      * by simplify_eq.
      * by apply Hns.
    + exists None. split; [done|]. simpl.
      apply repr_None_inv in Hch as ->. apply subtree_Nil.
Qed.

Lemma is_dead_repr (h : heap) (l : loc) (n : TrieNode) (t : tree) :
  repr h (Some l) t → h !! l = Some n → is_dead n = dead t.
Proof.
  intros Hrepr Hl.
  apply repr_Some_inv in Hrepr as (n' & ch & -> & Hl' & Hok & _ & Hch).
  assert (n' = n) as -> by congruence.
  unfold is_dead, dead. rewrite Hok. simpl in Hch.
  destruct (value_ n) as [v|]; simpl.
  - apply andb_false_r.
  - rewrite andb_true_r. apply Bool.eq_iff_eq_true.
    rewrite bool_decide_eq_true, childless_spec. split.
    + intros E c. specialize (Hch c). rewrite E, lookup_empty in Hch.
      by apply repr_None_inv in Hch.
    + intros Hnil. apply map_eq. intros c. rewrite lookup_empty.
      specialize (Hch c). rewrite Hnil in Hch.
      destruct (children_ n !! c); [inversion Hch|done].
Qed.

Lemma subtree_take_S (t : tree) (key : list ascii) (i : nat) (ch : ascii) :
  key !! i = Some ch →
  subtree t (take (S i) key) = child (subtree t (take i key)) ch.
Proof.
  intros H. by rewrite (take_S_r _ _ _ H), subtree_app.
Qed.

(** The loop of [Remove]: with [count] levels left to rebuild, [cur] is
    the node rebuilt at depth [count]. *)
Lemma Remove_loop_ok (h0 : heap) (key : list ascii) (ns : list loc)
    (tr : tree) :
  length ns = length key →
  (∀ i o, ns !! i = Some o → repr h0 (Some o) (subtree tr (take i key))) →
  ∀ count cur (h : heap),
    count ≤ length key → h0 ⊆ h →
    repr h (Some cur)
      (strip_node (subtree tr (take count key)) (drop count key)) →
    ∃ cur' (h' : heap),
      for_down count (λ i cur,
        ch ← at_index key i;
        old ← at_index ns i;
        n ← deref old;
        new_parent ← make_shared (Clone n);
        c ← deref cur;
        _ ← (if is_dead c
             then modify_children new_parent (delete ch)
             else modify_children new_parent (<[ch := cur]>));
        mret new_parent) cur h
      = Some (cur', h')
      ∧ h ⊆ h' ∧ repr h' (Some cur') (strip_node tr key).
Proof.
  intros Hlen Hns. induction count as [|i IH]; intros cur h Hi Hsub Hrepr.
  - exists cur, h. by rewrite drop_0 in Hrepr.
  - destruct (lookup_lt_is_Some_2 key i) as [ch Hch]; [lia|].
    destruct (lookup_lt_is_Some_2 ns i) as [old Hold]; [lia|].
    pose proof (Hns i old Hold) as Hold_repr.
    apply repr_Some_inv in Hold_repr as (no & chs & Hti & Hno & Hshno).
    pose proof (repr_Some_inv _ _ _ Hrepr) as (nc & ? & _ & Hnc & _).
    set (l := fresh (dom h)).
    assert (Hl : h !! l = None) by apply fresh_lookup.
    assert (Hne : cur ≠ l) by congruence.
    set (f := if is_dead nc then delete ch else <[ch := cur]>
           : gmap ascii loc → gmap ascii loc).
    set (h2 := <[l := with_children f (Clone no)]> h).
    assert (Hsub2 : h ⊆ h2) by by apply insert_subseteq.
    assert (Hbody :
      (ch ← at_index key i;
       old ← at_index ns i;
       n ← deref old;
       new_parent ← make_shared (Clone n);
       c ← deref cur;
       _ ← (if is_dead c
            then modify_children new_parent (delete ch)
            else modify_children new_parent (<[ch := cur]>));
       mret new_parent) h = Some (l, h2)).
    { mstep (at_index_eq key i ch h Hch).
      mstep (at_index_eq ns i old h Hold).
      mstep (deref_eq h old no (lookup_weaken _ _ _ _ Hno Hsub)).
      unfold mbind at 1, M_bind at 1, make_shared at 1. cbv zeta. fold l.
      erewrite (bind_eq (deref cur));
        [|apply deref_eq; rewrite lookup_insert_ne by done; exact Hnc].
      unfold h2, f. destruct (is_dead nc).
      - erewrite (bind_eq (modify_children _ _));
          [|apply modify_children_eq, lookup_insert_eq].
        unfold mret, M_ret. by rewrite insert_insert_eq.
      - erewrite (bind_eq (modify_children _ _));
          [|apply modify_children_eq, lookup_insert_eq].
        unfold mret, M_ret. by rewrite insert_insert_eq. }
    destruct (IH l h2) as (cur' & h' & Hrun & Hsub' & Hrepr');
      [lia|by etrans| |].
    { rewrite (drop_S _ _ _ Hch). simpl strip_node.
      set (ti := subtree tr (take i key)) in *.
      rewrite (subtree_take_S tr key i ch Hch) in Hrepr. fold ti in Hrepr.
      apply (repr_intro h2 l (with_children f (Clone no))).
      - apply lookup_insert_eq.
      - apply (shallow_Clone h0 no ti Hshno).
      - apply (shallow_Clone h0 no ti Hshno).
      - intros c. simpl. rewrite children_Clone.
        destruct (decide (c = ch)) as [->|Hc].
        + rewrite upd_eq. unfold f, prune.
          rewrite <- (is_dead_repr h cur nc _ Hrepr Hnc).
          destruct (is_dead nc).
          * rewrite lookup_delete_eq. constructor.
          * rewrite lookup_insert_eq. by eapply repr_mono.
        + rewrite upd_ne by done.
          replace (f (children_ no) !! c) with (children_ no !! c).
          * eapply repr_mono; [|apply Hshno]. by etrans.
          * unfold f. destruct (is_dead nc).
            -- by rewrite lookup_delete_ne.
            -- by rewrite lookup_insert_ne. }
    exists cur', h'. split_and!; [|by etrans|done].
    simpl for_down. unfold mbind at 1, M_bind at 1. by rewrite Hbody.
Qed.

(** [Remove] returns, keeps every node of the store it started from, and
    the trie it returns denotes [remove] of the tree of the receiver. *)
Lemma Remove_refines (h : heap) (t : Trie) (tr : tree) (key : list ascii) :
  repr h (root_ t) tr →
  (Z.of_nat (length key) ≤ INT_MAX)%Z →
  ∃ t' h', Remove t key h = Some (t', h') ∧ h ⊆ h'
           ∧ repr h' (root_ t') (remove tr key).
Proof.
  intros Hrepr Hmax. unfold Remove, remove.
  destruct (root_ t) as [r|] eqn:Hroot.
  - destruct (Remove_walk_spec h key r [] tr Hrepr) as (res & Hwalk & Hres).
    mstep Hwalk. destruct res as [[nodes cur]|].
    + destruct Hres as (ns & -> & Hlen & Hcur & Hns). simpl app.
      pose proof (repr_Some_inv _ _ _ Hcur)
        as (n & chs & Heq & Hn & Hok & Hval & Hch).
      mstep (deref_eq h cur n Hn). rewrite Hok, <- Hval.
      destruct (value_ n) as [v0|] eqn:Hv; simpl.
      * unfold mbind at 1, M_bind at 1, make_shared at 1. cbv zeta.
        set (l := fresh (dom h)).
        set (h1 := <[l := TrieNode_new (children_ n)]> h).
        assert (Hsub1 : h ⊆ h1) by apply insert_fresh_subseteq.
        rewrite Hlen in *.
        mstep (static_cast_int_eq (length key) h1 Hmax).
        mstep (int_arith_eq (Z.of_nat (length key) - 1) h1
                 ltac:(unfold INT_MIN; lia)).
        replace (Z.to_nat (Z.of_nat (length key) - 1 + 1))
          with (length key) by lia.
        destruct (Remove_loop_ok h key ns tr Hlen Hns (length key) l h1)
          as (cur' & h' & Hrun & Hsub' & Hrepr'); [lia|done| |].
        { rewrite take_ge, drop_all by lia. simpl.
          eapply repr_intro; [apply lookup_insert_eq|done|done|].
          intros c. eapply repr_mono; [exact Hsub1|]. apply Hch. }
        mstep Hrun.
        pose proof (repr_Some_inv _ _ _ Hrepr') as (nc & ? & _ & Hnc & _).
        mstep (deref_eq h' cur' nc Hnc).
        rewrite (is_dead_repr h' cur' nc _ Hrepr' Hnc).
        unfold strip, prune. destruct (dead (strip_node tr key)).
        -- eexists _, _. split_and!; [reflexivity|by etrans|constructor].
        -- eexists _, _. split_and!; [reflexivity|by etrans|done].
      * eexists _, _. split_and!; [reflexivity|done|done].
    + rewrite Hres. simpl. eexists _, _.
      split_and!; [reflexivity|done|done].
  - apply repr_None_inv in Hrepr as ->. rewrite subtree_Nil. simpl.
    eexists _, _. split_and!; [reflexivity|done|constructor].
Qed.

(** ** What lookups see after [put] and [remove] *)

Lemma tval_subtree_put (v : value) :
  ∀ (k : list ascii) (t : tree) (key : list ascii),
    tval (subtree (put t k v) key)
    = if decide (key = k) then Some v else tval (subtree t key).
Proof.
  induction k as [|a k IH]; intros t key.
  - destruct key as [|c key]; [done|]. by rewrite decide_False.
  - destruct key as [|c key]; [by rewrite decide_False|].
    cbn [put subtree child]. destruct (decide (c = a)) as [->|Hc].
    + rewrite upd_eq, IH. destruct (decide (key = k)) as [->|].
      * by rewrite decide_True.
      * by rewrite decide_False by congruence.
    + rewrite upd_ne by done. by rewrite decide_False by congruence.
Qed.

Lemma tget_put (T : vtype) (t : tree) (k key : list ascii) (v : value) :
  tget T (put t k v) key
  = if decide (key = k)
    then (if decide (type_of v = T) then Some v else None)
    else tget T t key.
Proof.
  unfold tget. rewrite tval_subtree_put. by destruct (decide (key = k)).
Qed.

Lemma dead_all_Nil (t : tree) (c : ascii) (key : list ascii) :
  dead t = true → subtree t (c :: key) = Nil.
Proof.
  intros (ch & -> & H)%dead_spec. simpl. rewrite H. apply subtree_Nil.
Qed.

Lemma dead_tval (t : tree) : dead t = true → tval t = None.
Proof. by intros (ch & -> & H)%dead_spec. Qed.

Lemma tval_subtree_prune (t : tree) (key : list ascii) :
  tval (subtree (prune t) key) = tval (subtree t key).
Proof.
  unfold prune. destruct (dead t) eqn:E; [|done].
  rewrite subtree_Nil. destruct key as [|c key]; simpl.
  - by rewrite dead_tval.
  - change (subtree (child t c) key) with (subtree t (c :: key)).
    by rewrite dead_all_Nil.
Qed.

Lemma tval_subtree_strip_node :
  ∀ (k : list ascii) (t : tree) (key : list ascii),
    tval (subtree (strip_node t k) key)
    = if decide (key = k) then None else tval (subtree t key).
Proof.
  induction k as [|a k IH]; intros t key.
  - destruct key as [|c key]; [done|]. by rewrite decide_False.
  - destruct key as [|c key]; [by rewrite decide_False|].
    cbn [strip_node subtree child]. destruct (decide (c = a)) as [->|Hc].
    + rewrite upd_eq, tval_subtree_prune, IH.
      destruct (decide (key = k)) as [->|].
      * by rewrite decide_True.
      * by rewrite decide_False by congruence.
    + rewrite upd_ne by done. by rewrite decide_False by congruence.
Qed.

Lemma tval_subtree_remove (t : tree) (k key : list ascii) :
  tval (subtree (remove t k) key)
  = if decide (key = k) then None else tval (subtree t key).
Proof.
  unfold remove, strip. destruct (tval (subtree t k)) eqn:E.
  - by rewrite tval_subtree_prune, tval_subtree_strip_node.
  - destruct (decide (key = k)) as [->|]; done.
Qed.


Lemma dead_child (v : option value) (ch : ascii → tree) (c : ascii) :
  ch c ≠ Nil → dead (Node v ch) = false.
Proof.
  intros H. destruct (dead (Node v ch)) eqn:E; [|done].
  apply dead_spec in E as (ch' & [= -> ->] & Hall). by destruct H.
Qed.

Lemma no_dead_Nil : no_dead Nil.
Proof. intros key. by rewrite subtree_Nil. Qed.

Lemma no_dead_child (t : tree) (c : ascii) : no_dead t → no_dead (child t c).
Proof. intros H key. apply (H (c :: key)). Qed.

Lemma put_not_Nil (t : tree) (k : list ascii) (v : value) : put t k v ≠ Nil.
Proof. by destruct k. Qed.

Lemma put_no_dead (v : value) :
  ∀ (k : list ascii) (t : tree), no_dead t → no_dead (put t k v).
Proof.
  induction k as [|a k IH]; intros t Ht [|c key]; simpl; try done.
  - apply (Ht (c :: key)).
  - apply (dead_child _ _ a). rewrite upd_eq. apply put_not_Nil.
  - destruct (decide (c = a)) as [->|Hc].
    + rewrite upd_eq. by apply IH, no_dead_child.
    + rewrite upd_ne by done. apply (Ht (c :: key)).
Qed.

Lemma dead_prune (t : tree) : dead (prune t) = false.
Proof. unfold prune. by destruct (dead t) eqn:E. Qed.

Lemma prune_no_dead (t : tree) :
  (∀ c, no_dead (child t c)) → no_dead (prune t).
Proof.
  intros H [|c key].
  - apply dead_prune.
  - unfold prune. destruct (dead t); [by rewrite subtree_Nil|]. apply H.
Qed.

Lemma strip_node_no_dead :
  ∀ (k : list ascii) (t : tree),
    no_dead t → ∀ c, no_dead (child (strip_node t k) c).
Proof.
  induction k as [|a k IH]; intros t Ht c; simpl.
  - by apply no_dead_child.
  - destruct (decide (c = a)) as [->|Hc].
    + rewrite upd_eq. by apply prune_no_dead, IH, no_dead_child.
    + rewrite upd_ne by done. by apply no_dead_child.
Qed.

Lemma remove_no_dead (t : tree) (k : list ascii) :
  no_dead t → no_dead (remove t k).
Proof.
  intros Ht. unfold remove, strip. destruct (tval (subtree t k)); [|done].
  by apply prune_no_dead, strip_node_no_dead.
Qed.

(** Along the path rebuilt by [strip] nothing dead is left, whatever the
    tree looked like elsewhere. *)
Lemma strip_path_live :
  ∀ (k : list ascii) (t : tree) (p : list ascii),
    p `prefix_of` k → dead (subtree (strip t k) p) = false.
Proof.
  induction k as [|a k IH]; intros t p Hp.
  - apply prefix_nil_inv in Hp as ->. apply dead_prune.
  - destruct p as [|c p]; [apply dead_prune|].
    pose proof (prefix_cons_inv_1 _ _ _ _ Hp) as ->.
    apply prefix_cons_inv_2 in Hp.
    unfold strip, prune.
    destruct (dead (strip_node t (a :: k))); [by rewrite subtree_Nil|].
    simpl. rewrite upd_eq. by apply IH.
Qed.

(** Removing the only key of a trie prunes every node, the root
    included. *)
Lemma strip_put_Nil (v : value) :
  ∀ k : list ascii, strip (put Nil k v) k = Nil.
Proof.
  assert (Hprune : ∀ ch : ascii → tree,
             (∀ c, ch c = Nil) → prune (Node None ch) = Nil).
  { intros ch H. unfold prune.
    replace (dead (Node None ch)) with true; [done|].
    symmetry. apply dead_spec. eauto. }
  induction k as [|a k IH]; unfold strip; simpl.
  - by apply Hprune.
  - apply Hprune. intros c. rewrite upd_eq. fold (strip (put Nil k v) k).
    rewrite IH. destruct (decide (c = a)) as [->|Hc].
    + by rewrite upd_eq.
    + rewrite upd_ne by done. simpl. by rewrite upd_ne.
Qed.

Lemma remove_put_Nil (v : value) (k : list ascii) :
  remove (put Nil k v) k = Nil.
Proof.
  unfold remove. rewrite tval_subtree_put, decide_True by done.
  apply strip_put_Nil.
Qed.

Lemma live_at_repr (h : heap) (t : Trie) (tr : tree) (p : list ascii) :
  repr h (root_ t) tr → (live_at h t p ↔ dead (subtree tr p) = false).
Proof.
  intros Hrepr. unfold live_at. destruct (root_ t) as [r|].
  - destruct (Get_walk_repr h p r tr Hrepr) as (ol & Hwalk & Hol).
    split.
    + intros H. destruct ol as [cur|].
      * pose proof (repr_Some_inv _ _ _ Hol) as (n & ? & _ & Hn & _).
        rewrite <- (is_dead_repr h cur n _ Hol Hn). eauto.
      * by apply repr_None_inv in Hol as ->.
    + intros H r' cur n [= <-] Hwalk' Hn.
      rewrite Hwalk in Hwalk'. injection Hwalk' as ->.
      by rewrite (is_dead_repr h cur n _ Hol Hn).
  - apply repr_None_inv in Hrepr as ->. rewrite subtree_Nil.
    split; [done|]. by intros _ r cur n [=].
Qed.

Lemma minimal_repr (h : heap) (t : Trie) (tr : tree) :
  repr h (root_ t) tr → (minimal h t ↔ no_dead tr).
Proof.
  intros Hrepr. unfold minimal, no_dead.
  split; intros H p; by apply (live_at_repr h t tr p Hrepr).
Qed.

Lemma repr_check_sound (fuel : nat) :
  ∀ (h : heap) (ol : option loc),
    repr_check fuel h ol = true → repr h ol (tree_of fuel h ol).
Proof.
  induction fuel as [|fuel IH]; intros h [l|] H; simpl in *;
    try discriminate; try constructor.
  destruct (h !! l) as [n|] eqn:Hl; [|discriminate].
  apply andb_true_iff in H as [Hok Hall].
  apply bool_decide_eq_true in Hok. rewrite forallb_forall in Hall.
  econstructor; eauto. intros c.
  destruct (children_ n !! c) as [l'|] eqn:E.
  - apply IH. apply (Hall (c, l')).
    apply list_elem_of_In. by apply elem_of_map_to_list.
  - destruct fuel; constructor.
Qed.

Lemma trie_wf_check (fuel : nat) (h : heap) (t : Trie) :
  repr_check fuel h (root_ t) = true → trie_wf h t.
Proof. intros H. eexists. by apply repr_check_sound. Qed.

Example demo_lookups :
  [Get TUInt32 demo_a (key_of "a") demo_heap;
   Get TUInt32 demo_a (key_of "ab") demo_heap;
   Get TUInt32 demo_ab (key_of "a") demo_heap;
   Get TUInt32 demo_ab (key_of "ab") demo_heap;
   Get TUInt64 demo_ab (key_of "ab") demo_heap;
   Get TUInt32 demo_ab (key_of "b") demo_heap]
  = [Some (Some (VUInt32 1)); Some None; Some (Some (VUInt32 1));
     Some (Some (VUInt32 2)); Some None; Some None].
Proof. vm_compute. reflexivity. Qed.

(** The operations run on the inputs of the specification's tests. *)

Example prefix_independence :
  run (t1 ← Put empty_trie (key_of "app") (VUInt32 1);
       t2 ← Put t1 (key_of "apple") (VUInt32 2);
       observe (λ h, [Get TUInt32 t2 (key_of "app") h;
                      Get TUInt32 t2 (key_of "apple") h;
                      Get TUInt32 t2 (key_of "appl") h;
                      Get TUInt32 t1 (key_of "apple") h]))
  = Some [Some (Some (VUInt32 1)); Some (Some (VUInt32 2)); Some None;
          Some None].
Proof. vm_compute. reflexivity. Qed.

Example type_mismatch :
  run (t1 ← Put empty_trie (key_of "k") (VUInt32 1);
       observe (λ h, [Get TString t1 (key_of "k") h;
                      Get TUInt32 t1 (key_of "k") h]))
  = Some [Some None; Some (Some (VUInt32 1))].
Proof. vm_compute. reflexivity. Qed.

Example remove_on_empty :
  Remove empty_trie (key_of "x") ∅ = Some (empty_trie, ∅).
Proof. reflexivity. Qed.

(** Removing ["abcd"] from [{a ↦ 1, abcd ↦ 2}] drops the nodes of [d],
    [c] and [b]: the node of [a] is kept, without children. *)
Example prune_three_levels :
  run (t1 ← Put empty_trie (key_of "a") (VUInt32 1);
       t2 ← Put t1 (key_of "abcd") (VUInt32 2);
       t3 ← Remove t2 (key_of "abcd");
       observe (λ h, ([Get TUInt32 t3 (key_of "a") h;
                       Get TUInt32 t3 (key_of "abcd") h;
                       Get TUInt32 t2 (key_of "abcd") h],
                      match root_ t3 with
                      | Some r =>
                          match Get_walk h r (key_of "a") with
                          | Some (Some cur) => children_ <$> h !! cur
                          | _ => None
                          end
                      | None => None
                      end)))
  = Some ([Some (Some (VUInt32 1)); Some None; Some (Some (VUInt32 2))],
          Some ∅).
Proof. vm_compute. reflexivity. Qed.

Lemma demo_ab_wf : trie_wf demo_heap demo_ab.
Proof. apply (trie_wf_check 3). vm_compute. reflexivity. Qed.

Lemma demo_a_wf : trie_wf demo_heap demo_a.
Proof. apply (trie_wf_check 2). vm_compute. reflexivity. Qed.

(** ** The properties of the specification *)

Lemma Get_same_repr (h1 h2 : heap) (t1 t2 : Trie) (tr1 tr2 : tree) :
  repr h1 (root_ t1) tr1 → repr h2 (root_ t2) tr2 →
  (∀ key, tval (subtree tr1 key) = tval (subtree tr2 key)) →
  ∀ T key, Get T t1 key h1 = Get T t2 key h2.
Proof.
  intros H1 H2 Heq T key.
  rewrite (Get_repr h1 t1 tr1 T key H1), (Get_repr h2 t2 tr2 T key H2).
  unfold tget. by rewrite Heq.
Qed.

(** C1. Persistence of old versions: [Put] and [Remove] return, every
    node of the store they started from is still there with the same
    contents, and every [Get] on the receiver returns after the call what
    it returned before. *)
Theorem Put_Remove_persistent (h : heap) (t1 : Trie) (k : list ascii)
    (v : value) :
  trie_wf h t1 →
  (Z.of_nat (length k) ≤ INT_MAX)%Z →
  (∃ t2 h', Put t1 k v h = Some (t2, h') ∧ h ⊆ h'
            ∧ ∀ T k', Get T t1 k' h' = Get T t1 k' h)
  ∧ (∃ t2 h', Remove t1 k h = Some (t2, h') ∧ h ⊆ h'
              ∧ ∀ T k', Get T t1 k' h' = Get T t1 k' h).
Proof.
  intros [tr Hrepr] Hmax. split.
  - destruct (Put_refines h t1 tr k v Hrepr (or_intror Hmax))
      as (t2 & h' & Hrun & Hsub & _).
    exists t2, h'. split_and!; [done|done|].
    apply (Get_same_repr h' h t1 t1 tr tr); [|done|done].
    by eapply repr_mono.
  - destruct (Remove_refines h t1 tr k Hrepr Hmax)
      as (t2 & h' & Hrun & Hsub & _).
    exists t2, h'. split_and!; [done|done|].
    apply (Get_same_repr h' h t1 t1 tr tr); [|done|done].
    by eapply repr_mono.
Qed.

Lemma Put_Remove_persistent_witness :
  trie_wf demo_heap demo_ab
  ∧ (Z.of_nat (length (key_of "ac")) ≤ INT_MAX)%Z
  ∧ (∃ t2 h', Put demo_ab (key_of "ac") (VUInt32 3) demo_heap = Some (t2, h')
       ∧ demo_heap ⊆ h'
       ∧ ∀ T k', Get T demo_ab k' h' = Get T demo_ab k' demo_heap)
  ∧ (∃ t2 h', Remove demo_ab (key_of "ac") demo_heap = Some (t2, h')
       ∧ demo_heap ⊆ h'
       ∧ ∀ T k', Get T demo_ab k' h' = Get T demo_ab k' demo_heap).
Proof.
  split; [exact demo_ab_wf|].
  split; [vm_compute; discriminate|].
  apply Put_Remove_persistent; [exact demo_ab_wf|vm_compute; discriminate].
Defined.

(** C2. [Get] after [Put] on the empty trie: for every key, the empty
    one included, and every value [v], [Put] on the empty trie returns
    and [Get] at the type of [v] on the result returns [v]. *)
Theorem Get_Put_empty (h : heap) (key : list ascii) (v : value) :
  ∃ t h', Put empty_trie key v h = Some (t, h')
          ∧ Get (type_of v) t key h' = Some (Some v).
Proof.
  destruct (Put_refines h empty_trie Nil key v) as (t & h' & Hrun & _ & Hrepr).
  { constructor. }
  { by left. }
  exists t, h'. split; [done|].
  rewrite (Get_repr h' t _ (type_of v) key Hrepr), tget_put.
  by rewrite !decide_True.
Qed.



(** C4, as stated, fails when the key already has a value: in the trie
    [{a ↦ 1}], [Put("a", 2)] then [Remove("a")] gives the empty trie,
    where [Get("a")] is absent instead of 1. *)
Lemma Put_Remove_roundtrip_counterexample :
  trie_wf demo_heap demo_a
  ∧ (Z.of_nat (length (key_of "a")) ≤ INT_MAX)%Z
  ∧ ¬ Put_Remove_roundtrip demo_heap demo_a (key_of "a") (VUInt32 2).
Proof.
  split; [exact demo_a_wf|].
  split; [vm_compute; discriminate|].
  intros (t1 & h1 & t2 & h2 & HP & HR & HG).
  vm_compute in HP. injection HP as <- <-.
  vm_compute in HR. injection HR as <- <-.
  specialize (HG TUInt32 (key_of "a")). vm_compute in HG. discriminate.
Qed.

Lemma tget_absent (t : tree) (k : list ascii) :
  (∀ T, tget T t k = None) → tval (subtree t k) = None.
Proof.
  intros H. destruct (tval (subtree t k)) as [v|] eqn:E; [|done].
  specialize (H (type_of v)). unfold tget in H. rewrite E in H.
  by rewrite decide_True in H.
Qed.

(** C4, amended. When the key is of at most [INT_MAX] bytes and has no
    value in the receiver ([Get] is absent at every type), [Put(k, v)]
    then [Remove(k)] give a trie that answers every [Get] as the receiver
    did. *)
Theorem Put_Remove_roundtrip_absent (h : heap) (t : Trie) (k : list ascii)
    (v : value) :
  trie_wf h t →
  (Z.of_nat (length k) ≤ INT_MAX)%Z →
  (∀ T, Get T t k h = Some None) →
  Put_Remove_roundtrip h t k v.
Proof.
  intros [tr Hrepr] Hmax Habsent.
  assert (Hnone : tval (subtree tr k) = None).
  { apply tget_absent. intros T. specialize (Habsent T).
    rewrite (Get_repr h t tr T k Hrepr) in Habsent. congruence. }
  destruct (Put_refines h t tr k v Hrepr (or_intror Hmax))
    as (t1 & h1 & Hrun1 & _ & Hrepr1).
  destruct (Remove_refines h1 t1 _ k Hrepr1 Hmax)
    as (t2 & h2 & Hrun2 & _ & Hrepr2).
  exists t1, h1, t2, h2. split_and!; [done|done|].
  apply (Get_same_repr h2 h t2 t _ tr Hrepr2 Hrepr).
  intros key. rewrite tval_subtree_remove, tval_subtree_put.
  destruct (decide (key = k)) as [->|]; done.
Qed.

Lemma Put_Remove_roundtrip_absent_witness :
  trie_wf demo_heap demo_ab
  ∧ (Z.of_nat (length (key_of "abc")) ≤ INT_MAX)%Z
  ∧ (∀ T, Get T demo_ab (key_of "abc") demo_heap = Some None)
  ∧ Put_Remove_roundtrip demo_heap demo_ab (key_of "abc") (VString "x").
Proof.
  assert (H : ∀ T, Get T demo_ab (key_of "abc") demo_heap = Some None)
    by (intros []; vm_compute; reflexivity).
  split; [exact demo_ab_wf|].
  split; [vm_compute; discriminate|].
  split; [exact H|].
  apply Put_Remove_roundtrip_absent;
    [exact demo_ab_wf|vm_compute; discriminate|exact H].
Defined.

Lemma repr_Nil_root (h : heap) (ol : option loc) : repr h ol Nil → ol = None.
Proof. by inversion 1. Qed.

(** C5. [Remove] of a key that has a value prunes at every level of the
    path it rebuilds: in the result no node on the path of [k], the root
    included, is left without children and without a value, so that an
    ancestor made childless by the pruning below it is pruned in turn.
    When the pruning reaches the root the result is the trie with the
    absent root: removing the only key of a trie gives it back. *)
Theorem Remove_prunes_path (h : heap) (t : Trie) (k : list ascii) :
  trie_wf h t →
  (Z.of_nat (length k) ≤ INT_MAX)%Z →
  (∃ T v, Get T t k h = Some (Some v)) →
  (∃ t' h', Remove t k h = Some (t', h')
            ∧ ∀ p, p `prefix_of` k → live_at h' t' p)
  ∧ (∀ (h0 : heap) (v : value),
       ∃ t1 h1 t2 h2,
         Put empty_trie k v h0 = Some (t1, h1)
         ∧ Remove t1 k h1 = Some (t2, h2)
         ∧ root_ t2 = None).
Proof.
  intros [tr Hrepr] Hmax (T & v & Hget). split.
  - destruct (Remove_refines h t tr k Hrepr Hmax)
      as (t' & h' & Hrun & _ & Hrepr').
    exists t', h'. split; [done|]. intros p Hp.
    apply (live_at_repr h' t' _ p Hrepr').
    rewrite (Get_repr h t tr T k Hrepr) in Hget.
    unfold remove. unfold tget in Hget.
    destruct (tval (subtree tr k)); [|done].
    by apply strip_path_live.
  - intros h0 v0.
    destruct (Put_refines h0 empty_trie Nil k v0)
      as (t1 & h1 & Hrun1 & _ & Hrepr1); [constructor|by left|].
    destruct (Remove_refines h1 t1 _ k Hrepr1 Hmax)
      as (t2 & h2 & Hrun2 & _ & Hrepr2).
    exists t1, h1, t2, h2. split_and!; [done|done|].
    rewrite remove_put_Nil in Hrepr2. by eapply repr_Nil_root.
Qed.

Lemma Remove_prunes_path_witness :
  trie_wf demo_heap demo_ab
  ∧ (Z.of_nat (length (key_of "ab")) ≤ INT_MAX)%Z
  ∧ (∃ T v, Get T demo_ab (key_of "ab") demo_heap = Some (Some v))
  ∧ (∃ t' h', Remove demo_ab (key_of "ab") demo_heap = Some (t', h')
              ∧ ∀ p, p `prefix_of` key_of "ab" → live_at h' t' p)
  ∧ (∀ (h0 : gmap positive TrieNode) (v : value),
       ∃ t1 h1 t2 h2,
         Put empty_trie (key_of "ab") v h0 = Some (t1, h1)
         ∧ Remove t1 (key_of "ab") h1 = Some (t2, h2)
         ∧ root_ t2 = None).
Proof.
  assert (H : ∃ T v, Get T demo_ab (key_of "ab") demo_heap = Some (Some v))
    by (exists TUInt32, (VUInt32 2); vm_compute; reflexivity).
  split; [exact demo_ab_wf|].
  split; [vm_compute; discriminate|].
  split; [exact H|].
  apply Remove_prunes_path;
    [exact demo_ab_wf|vm_compute; discriminate|exact H].
Defined.

Lemma Remove_walk_Get_walk (h : heap) :
  ∀ (key : list ascii) (cur : loc) (nodes : list loc),
    match Get_walk h cur key with
    | Some (Some c) =>
        ∃ nodes', Remove_walk cur key nodes h = Some (Some (nodes', c), h)
    | Some None => Remove_walk cur key nodes h = Some (None, h)
    | None => Remove_walk cur key nodes h = None
    end.
Proof.
  induction key as [|ch key IH]; intros cur nodes; simpl.
  - eauto.
  - unfold mbind, M_bind, deref. destruct (h !! cur) as [n|]; [|done].
    destruct (children_ n !! ch) as [c|]; [|done]. apply IH.
Qed.

(** C6. [Remove] of a missing key changes nothing: when the trie is
    empty, or the walk along the key finds a byte without a child, or the
    node at the end of the walk is not a value node, [Remove] returns the
    receiver (the same root pointer) and leaves the store as it was. *)
Theorem Remove_missing_noop (h : heap) (t : Trie) (key : list ascii) :
  missing h t key → Remove t key h = Some (t, h).
Proof.
  destruct t as [root]. unfold missing. simpl.
  intros [->|(r & -> & [Hwalk|(cur & n & Hwalk & Hn & Hflag)])];
    unfold Remove; simpl; [done| |].
  - pose proof (Remove_walk_Get_walk h key r []) as H.
    rewrite Hwalk in H. by mstep H.
  - pose proof (Remove_walk_Get_walk h key r []) as H.
    rewrite Hwalk in H. destruct H as [nodes' H]. mstep H.
    mstep (deref_eq h cur n Hn). by rewrite Hflag.
Qed.

Lemma demo_ab_missing_ax : missing demo_heap demo_ab (key_of "ax").
Proof.
  right. eexists. split; [vm_compute; reflexivity|].
  left. vm_compute. reflexivity.
Qed.

Lemma Remove_missing_noop_witness :
  missing demo_heap demo_ab (key_of "ax")
  ∧ Remove demo_ab (key_of "ax") demo_heap = Some (demo_ab, demo_heap).
Proof.
  split; [exact demo_ab_missing_ax|].
  apply Remove_missing_noop. exact demo_ab_missing_ax.
Defined.

Lemma Get_missing (h : heap) (t : Trie) (T : vtype) (key : list ascii) :
  missing h t key → Get T t key h = Some None.
Proof.
  unfold Get.
  intros [->|(r & -> & [->|(cur & n & -> & -> & ->)])]; done.
Qed.

(** C7. A type mismatch is absent, not an error: when the walk along the
    key ends at a value node whose stored value is not of the requested
    type, [Get] returns the null pointer, which is what it returns for
    every key that is missing. *)
Theorem Get_type_mismatch_absent (h : heap) (t : Trie) (T : vtype)
    (key : list ascii) (r cur : loc) (n : TrieNode) (v : value) :
  root_ t = Some r →
  Get_walk h r key = Some (Some cur) →
  h !! cur = Some n →
  is_value_node_ n = true →
  value_ n = Some v →
  type_of v ≠ T →
  Get T t key h = Some None
  ∧ ∀ t' key', missing h t' key' → Get T t' key' h = Get T t key h.
Proof.
  intros Hroot Hwalk Hn Hflag Hv Hty.
  assert (Hget : Get T t key h = Some None).
  { unfold Get, dynamic_cast_value.
    rewrite Hroot, Hwalk, Hn, Hflag, Hv. by rewrite decide_False. }
  split; [done|]. intros t' key' Hmiss.
  by rewrite Hget, (Get_missing h t' T key' Hmiss).
Qed.

Lemma Get_type_mismatch_absent_witness :
  ∃ r cur n,
    root_ demo_ab = Some r
    ∧ Get_walk demo_heap r (key_of "ab") = Some (Some cur)
    ∧ demo_heap !! cur = Some n
    ∧ is_value_node_ n = true
    ∧ value_ n = Some (VUInt32 2)
    ∧ type_of (VUInt32 2) ≠ TString
    ∧ Get TString demo_ab (key_of "ab") demo_heap = Some None
    ∧ ∀ t' key', missing demo_heap t' key' →
        Get TString t' key' demo_heap
        = Get TString demo_ab (key_of "ab") demo_heap.
Proof.
  eexists _, _, _.
  split; [vm_compute; reflexivity|].
  split; [vm_compute; reflexivity|].
  split; [vm_compute; reflexivity|].
  split; [reflexivity|].
  split; [reflexivity|].
  split; [discriminate|].
  eapply Get_type_mismatch_absent;
    [vm_compute; reflexivity|vm_compute; reflexivity|vm_compute; reflexivity
    |reflexivity|reflexivity|discriminate].
Defined.

(** C8. [Put] with the empty key allocates one node, the new root: a
    value node holding [v] whose children mapping is that of the old
    root, or empty when there was no root.  The store is otherwise as it
    was.  On the empty trie, [Put] of 42 at the empty key makes [Get] at
    the empty key return 42, and a further [Put("a", 1)] keeps it so. *)
Theorem Put_empty_key_root (h : heap) (t : Trie) (v : value) :
  (∃ l, h !! l = None
        ∧ match root_ t with
          | None =>
              Put t [] v h
              = Some (mkTrie (Some l), <[l := TrieNodeWithValue_new ∅ v]> h)
          | Some r =>
              ∀ n, h !! r = Some n →
                   Put t [] v h
                   = Some (mkTrie (Some l),
                           <[l := TrieNodeWithValue_new (children_ n) v]> h)
          end)
  ∧ (∃ t1 h1 t2 h2,
        Put empty_trie [] (VUInt32 42) h = Some (t1, h1)
        ∧ Get TUInt32 t1 [] h1 = Some (Some (VUInt32 42))
        ∧ Put t1 (key_of "a") (VUInt32 1) h1 = Some (t2, h2)
        ∧ Get TUInt32 t2 [] h2 = Some (Some (VUInt32 42))).
Proof.
  split.
  - exists (fresh (dom h)). split; [apply fresh_lookup|].
    destruct (Put_empty_key_eq h t v)
      as [(Hr & Hrun)|[(r & Hr & Hn & _)|(r & n & Hr & Hn & Hrun)]];
      rewrite Hr; [done| |].
    + intros n. congruence.
    + intros n'. rewrite Hn. by intros [= <-].
  - destruct (Put_refines h empty_trie Nil [] (VUInt32 42))
      as (t1 & h1 & Hrun1 & _ & Hrepr1); [constructor|by left|].
    destruct (Put_refines h1 t1 _ (key_of "a") (VUInt32 1) Hrepr1)
      as (t2 & h2 & Hrun2 & _ & Hrepr2).
    { right. vm_compute. discriminate. }
    exists t1, h1, t2, h2. split_and!; [done| |done|].
    + by rewrite (Get_repr h1 t1 _ _ _ Hrepr1).
    + by rewrite (Get_repr h2 t2 _ _ _ Hrepr2).
Qed.

Lemma reachable_repr (h : heap) (t : Trie) :
  reachable h t → ∃ tr, repr h (root_ t) tr ∧ no_dead tr.
Proof.
  induction 1 as [h|h t k v t' h' _ (tr & Hrepr & Hnd) Hmax Hrun
                 |h t k t' h' _ (tr & Hrepr & Hnd) Hmax Hrun
                 |h h' t _ (tr & Hrepr & Hnd) Hsub].
  - exists Nil. split; [constructor|apply no_dead_Nil].
  - destruct (Put_refines h t tr k v Hrepr (or_intror Hmax))
      as (t2 & h2 & Hrun2 & _ & Hrepr2).
    rewrite Hrun in Hrun2. injection Hrun2 as <- <-.
    exists (put tr k v). split; [done|by apply put_no_dead].
  - destruct (Remove_refines h t tr k Hrepr Hmax)
      as (t2 & h2 & Hrun2 & _ & Hrepr2).
    rewrite Hrun in Hrun2. injection Hrun2 as <- <-.
    exists (remove tr k). split; [done|by apply remove_no_dead].
  - exists tr. split; [by eapply repr_mono|done].
Qed.

(** C9. Minimality: in every trie built from the empty trie by [Put] and
    [Remove], no node reachable from the root is without children and
    without a value; [Put] and [Remove] on such a trie return, and the
    trie they return has the property again. *)
Theorem minimality_invariant (h : heap) (t : Trie) :
  reachable h t →
  minimal h t
  ∧ (∀ k v, (Z.of_nat (length k) ≤ INT_MAX)%Z →
            ∃ t' h', Put t k v h = Some (t', h') ∧ minimal h' t')
  ∧ (∀ k, (Z.of_nat (length k) ≤ INT_MAX)%Z →
          ∃ t' h', Remove t k h = Some (t', h') ∧ minimal h' t').
Proof.
  intros Hreach.
  destruct (reachable_repr h t Hreach) as (tr & Hrepr & Hnd).
  split_and!.
  - by apply (minimal_repr h t tr).
  - intros k v Hmax.
    destruct (Put_refines h t tr k v Hrepr (or_intror Hmax))
      as (t' & h' & Hrun & _ & Hrepr').
    exists t', h'. split; [done|].
    apply (minimal_repr h' t' _ Hrepr'). by apply put_no_dead.
  - intros k Hmax.
    destruct (Remove_refines h t tr k Hrepr Hmax)
      as (t' & h' & Hrun & _ & Hrepr').
    exists t', h'. split; [done|].
    apply (minimal_repr h' t' _ Hrepr'). by apply remove_no_dead.
Qed.

Lemma demo_ab_reachable : reachable demo_heap demo_ab.
Proof.
  apply (reach_Put demo1.2 demo_a (key_of "ab") (VUInt32 2)).
  - apply (reach_Put ∅ empty_trie (key_of "a") (VUInt32 1)).
    + apply reach_empty.
    + vm_compute. discriminate.
    + vm_compute. reflexivity.
  - vm_compute. discriminate.
  - vm_compute. reflexivity.
Qed.

Lemma minimality_invariant_witness :
  reachable demo_heap demo_ab
  ∧ minimal demo_heap demo_ab
  ∧ (∀ k v, (Z.of_nat (length k) ≤ INT_MAX)%Z →
            ∃ t' h', Put demo_ab k v demo_heap = Some (t', h')
                     ∧ minimal h' t')
  ∧ (∀ k, (Z.of_nat (length k) ≤ INT_MAX)%Z →
          ∃ t' h', Remove demo_ab k demo_heap = Some (t', h')
                   ∧ minimal h' t').
Proof.
  split; [exact demo_ab_reachable|].
  apply minimality_invariant. exact demo_ab_reachable.
Defined.

(** X14. [Put] commutes on distinct keys of at most [INT_MAX] bytes:
    from the same trie, putting [k1] then [k2] and putting [k2] then [k1]
    give tries on which every [Get] returns the same result, also when
    one key is a prefix of the other. *)
Theorem Put_commutes (h : heap) (t : Trie) (k1 k2 : list ascii)
    (v1 v2 : value) :
  trie_wf h t →
  (Z.of_nat (length k1) ≤ INT_MAX)%Z →
  (Z.of_nat (length k2) ≤ INT_MAX)%Z →
  k1 ≠ k2 →
  ∃ ta ha tab hab tb hb tba hba,
    Put t k1 v1 h = Some (ta, ha)
    ∧ Put ta k2 v2 ha = Some (tab, hab)
    ∧ Put t k2 v2 h = Some (tb, hb)
    ∧ Put tb k1 v1 hb = Some (tba, hba)
    ∧ ∀ T key, Get T tab key hab = Get T tba key hba.
Proof.
  intros [tr Hrepr] Hmax1 Hmax2 Hne.
  destruct (Put_refines h t tr k1 v1 Hrepr (or_intror Hmax1))
    as (ta & ha & Hruna & _ & Hrepra).
  destruct (Put_refines ha ta _ k2 v2 Hrepra (or_intror Hmax2))
    as (tab & hab & Hrunab & _ & Hreprab).
  destruct (Put_refines h t tr k2 v2 Hrepr (or_intror Hmax2))
    as (tb & hb & Hrunb & _ & Hreprb).
  destruct (Put_refines hb tb _ k1 v1 Hreprb (or_intror Hmax1))
    as (tba & hba & Hrunba & _ & Hreprba).
  exists ta, ha, tab, hab, tb, hb, tba, hba.
  split_and!; [done|done|done|done|].
  apply (Get_same_repr hab hba tab tba _ _ Hreprab Hreprba).
  intros key. rewrite !tval_subtree_put.
  destruct (decide (key = k2)) as [->|]; [|done].
  by rewrite decide_False by done.
Qed.

Lemma Put_commutes_witness :
  trie_wf demo_heap demo_ab
  ∧ (Z.of_nat (length (key_of "abc")) ≤ INT_MAX)%Z
  ∧ (Z.of_nat (length (key_of "ab")) ≤ INT_MAX)%Z
  ∧ key_of "abc" ≠ key_of "ab"
  ∧ ∃ ta ha tab hab tb hb tba hba,
      Put demo_ab (key_of "abc") (VString "x") demo_heap = Some (ta, ha)
      ∧ Put ta (key_of "ab") (VUInt64 9) ha = Some (tab, hab)
      ∧ Put demo_ab (key_of "ab") (VUInt64 9) demo_heap = Some (tb, hb)
      ∧ Put tb (key_of "abc") (VString "x") hb = Some (tba, hba)
      ∧ ∀ T key, Get T tab key hab = Get T tba key hba.
Proof.
  split; [exact demo_ab_wf|].
  split; [vm_compute; discriminate|].
  split; [vm_compute; discriminate|].
  split; [discriminate|].
  apply Put_commutes;
    [exact demo_ab_wf|vm_compute; discriminate|vm_compute; discriminate
    |discriminate].
Defined.

(** ** Further properties of [Get], [Put] and [Remove] *)

Lemma repr_missing (h : heap) (t : Trie) (tr : tree) (k : list ascii) :
  repr h (root_ t) tr → tval (subtree tr k) = None → missing h t k.
Proof.
  intros Hrepr Hnone. unfold missing.
  destruct (root_ t) as [r|]; [right|by left].
  exists r. split; [done|].
  destruct (Get_walk_repr h k r tr Hrepr) as ([cur|] & Hwalk & Hol);
    [right|by left].
  apply repr_Some_inv in Hol as (n & ch & Heq & Hn & Hok & Hv & _).
  exists cur, n. split_and!; [done|done|].
  rewrite Hok, Hv, Hnone. reflexivity.
Qed.

Lemma Remove_missing_same (h : heap) (t : Trie) (key : list ascii) :
  missing h t key → Remove t key h = Some (t, h).
Proof.
  destruct t as [root]. unfold missing. simpl.
  intros [->|(r & -> & [Hwalk|(cur & n & Hwalk & Hn & Hflag)])];
    unfold Remove; simpl; [done| |];
    pose proof (Remove_walk_Get_walk h key r []) as H; rewrite Hwalk in H.
  - by mstep H.
  - destruct H as [nodes' H]. mstep H.
    mstep (deref_eq h cur n Hn). by rewrite Hflag.
Qed.

Lemma same_lookups_repr (h1 h2 : heap) (t1 t2 : Trie) (tr1 tr2 : tree) :
  repr h1 (root_ t1) tr1 → repr h2 (root_ t2) tr2 →
  (∀ key, tval (subtree tr1 key) = tval (subtree tr2 key)) →
  same_lookups h1 t1 h2 t2.
Proof.
  intros H1 H2 Heq T key. by apply (Get_same_repr h1 h2 t1 t2 tr1 tr2).
Qed.

(** X1. [Put] is exact on every trie: on the trie returned by
    [Put(k, v)], [Get] of [k] at the type of [v] returns [v], [Get] of
    [k] at any other type is absent (a value stored there before is
    replaced, whatever its type), and [Get] of every other key returns
    what it returned on the receiver. *)
Theorem Put_exact (h : heap) (t : Trie) (k : list ascii) (v : value) :
  trie_wf h t →
  (Z.of_nat (length k) ≤ INT_MAX)%Z →
  ∃ t' h',
    Put t k v h = Some (t', h')
    ∧ Get (type_of v) t' k h' = Some (Some v)
    ∧ (∀ T, T ≠ type_of v → Get T t' k h' = Some None)
    ∧ (∀ T k', k' ≠ k → Get T t' k' h' = Get T t k' h).
Proof.
  intros [tr Hrepr] Hmax.
  destruct (Put_refines h t tr k v Hrepr (or_intror Hmax))
    as (t' & h' & Hrun & _ & Hrepr').
  exists t', h'. split_and!; [done| | |].
  - rewrite (Get_repr h' t' _ _ k Hrepr'), tget_put.
    by rewrite !decide_True.
  - intros T HT. rewrite (Get_repr h' t' _ T k Hrepr'), tget_put.
    rewrite decide_True by done. by rewrite decide_False.
  - intros T k' Hne.
    rewrite (Get_repr h' t' _ T k' Hrepr'), (Get_repr h t tr T k' Hrepr).
    rewrite tget_put. by rewrite decide_False.
Qed.

Lemma Put_exact_witness :
  trie_wf demo_heap demo_ab
  ∧ (Z.of_nat (length (key_of "a")) ≤ INT_MAX)%Z
  ∧ ∃ t' h',
      Put demo_ab (key_of "a") (VString "one") demo_heap = Some (t', h')
      ∧ Get TString t' (key_of "a") h' = Some (Some (VString "one"))
      ∧ (∀ T, T ≠ TString → Get T t' (key_of "a") h' = Some None)
      ∧ (∀ T k', k' ≠ key_of "a" →
                 Get T t' k' h' = Get T demo_ab k' demo_heap).
Proof.
  split; [exact demo_ab_wf|].
  split; [vm_compute; discriminate|].
  apply (Put_exact demo_heap demo_ab (key_of "a") (VString "one"));
    [exact demo_ab_wf|vm_compute; discriminate].
Defined.

(** X2. For a key of at most [INT_MAX] bytes, [Put(k, v)] followed by
    [Remove(k)] is [Remove(k)]: from the same trie both give tries that
    answer every [Get] alike, whether or not [k] had a value before. *)
Theorem Put_then_Remove (h : heap) (t : Trie) (k : list ascii) (v : value) :
  trie_wf h t →
  (Z.of_nat (length k) ≤ INT_MAX)%Z →
  ∃ t1 h1 t2 h2 t3 h3,
    Put t k v h = Some (t1, h1)
    ∧ Remove t1 k h1 = Some (t2, h2)
    ∧ Remove t k h = Some (t3, h3)
    ∧ same_lookups h2 t2 h3 t3.
Proof.
  intros [tr Hrepr] Hmax.
  destruct (Put_refines h t tr k v Hrepr (or_intror Hmax))
    as (t1 & h1 & Hrun1 & _ & Hrepr1).
  destruct (Remove_refines h1 t1 _ k Hrepr1 Hmax)
    as (t2 & h2 & Hrun2 & _ & Hrepr2).
  destruct (Remove_refines h t tr k Hrepr Hmax)
    as (t3 & h3 & Hrun3 & _ & Hrepr3).
  exists t1, h1, t2, h2, t3, h3. split_and!; [done|done|done|].
  apply (same_lookups_repr _ _ _ _ _ _ Hrepr2 Hrepr3).
  intros key. rewrite !tval_subtree_remove, tval_subtree_put.
  by destruct (decide (key = k)).
Qed.

Lemma Put_then_Remove_witness :
  trie_wf demo_heap demo_ab
  ∧ (Z.of_nat (length (key_of "a")) ≤ INT_MAX)%Z
  ∧ ∃ t1 h1 t2 h2 t3 h3,
      Put demo_ab (key_of "a") (VUInt32 5) demo_heap = Some (t1, h1)
      ∧ Remove t1 (key_of "a") h1 = Some (t2, h2)
      ∧ Remove demo_ab (key_of "a") demo_heap = Some (t3, h3)
      ∧ same_lookups h2 t2 h3 t3.
Proof.
  split; [exact demo_ab_wf|].
  split; [vm_compute; discriminate|].
  apply Put_then_Remove; [exact demo_ab_wf|vm_compute; discriminate].
Defined.

(** X3. The last [Put] wins: for a key of at most [INT_MAX] bytes,
    [Put(k, v1)] followed by [Put(k, v2)] gives a trie that answers every
    [Get] as [Put(k, v2)] alone does, also when the two values have
    different types. *)
Theorem Put_Put_last_wins (h : heap) (t : Trie) (k : list ascii)
    (v1 v2 : value) :
  trie_wf h t →
  (Z.of_nat (length k) ≤ INT_MAX)%Z →
  ∃ t1 h1 t2 h2 t3 h3,
    Put t k v1 h = Some (t1, h1)
    ∧ Put t1 k v2 h1 = Some (t2, h2)
    ∧ Put t k v2 h = Some (t3, h3)
    ∧ same_lookups h2 t2 h3 t3.
Proof.
  intros [tr Hrepr] Hmax.
  destruct (Put_refines h t tr k v1 Hrepr (or_intror Hmax))
    as (t1 & h1 & Hrun1 & _ & Hrepr1).
  destruct (Put_refines h1 t1 _ k v2 Hrepr1 (or_intror Hmax))
    as (t2 & h2 & Hrun2 & _ & Hrepr2).
  destruct (Put_refines h t tr k v2 Hrepr (or_intror Hmax))
    as (t3 & h3 & Hrun3 & _ & Hrepr3).
  exists t1, h1, t2, h2, t3, h3. split_and!; [done|done|done|].
  apply (same_lookups_repr _ _ _ _ _ _ Hrepr2 Hrepr3).
  intros key. rewrite !tval_subtree_put.
  by destruct (decide (key = k)).
Qed.

Lemma Put_Put_last_wins_witness :
  trie_wf demo_heap demo_ab
  ∧ (Z.of_nat (length (key_of "ab")) ≤ INT_MAX)%Z
  ∧ ∃ t1 h1 t2 h2 t3 h3,
      Put demo_ab (key_of "ab") (VString "x") demo_heap = Some (t1, h1)
      ∧ Put t1 (key_of "ab") (VUInt64 7) h1 = Some (t2, h2)
      ∧ Put demo_ab (key_of "ab") (VUInt64 7) demo_heap = Some (t3, h3)
      ∧ same_lookups h2 t2 h3 t3.
Proof.
  split; [exact demo_ab_wf|].
  split; [vm_compute; discriminate|].
  apply Put_Put_last_wins; [exact demo_ab_wf|vm_compute; discriminate].
Defined.





(** X6. [Put] and [Remove] of distinct keys of at most [INT_MAX] bytes
    commute: [Put(k1, v)] then [Remove(k2)] and [Remove(k2)] then
    [Put(k1, v)] give tries that answer every [Get] alike, also when one
    key is a prefix of the other. *)
Theorem Put_Remove_commute (h : heap) (t : Trie) (k1 k2 : list ascii)
    (v : value) :
  trie_wf h t →
  (Z.of_nat (length k1) ≤ INT_MAX)%Z →
  (Z.of_nat (length k2) ≤ INT_MAX)%Z →
  k1 ≠ k2 →
  ∃ ta ha tab hab tb hb tba hba,
    Put t k1 v h = Some (ta, ha)
    ∧ Remove ta k2 ha = Some (tab, hab)
    ∧ Remove t k2 h = Some (tb, hb)
    ∧ Put tb k1 v hb = Some (tba, hba)
    ∧ same_lookups hab tab hba tba.
Proof.
  intros [tr Hrepr] Hmax1 Hmax2 Hne.
  destruct (Put_refines h t tr k1 v Hrepr (or_intror Hmax1))
    as (ta & ha & Hruna & _ & Hrepra).
  destruct (Remove_refines ha ta _ k2 Hrepra Hmax2)
    as (tab & hab & Hrunab & _ & Hreprab).
  destruct (Remove_refines h t tr k2 Hrepr Hmax2)
    as (tb & hb & Hrunb & _ & Hreprb).
  destruct (Put_refines hb tb _ k1 v Hreprb (or_intror Hmax1))
    as (tba & hba & Hrunba & _ & Hreprba).
  exists ta, ha, tab, hab, tb, hb, tba, hba.
  split_and!; [done|done|done|done|].
  apply (same_lookups_repr _ _ _ _ _ _ Hreprab Hreprba).
  intros key.
  rewrite tval_subtree_remove, !tval_subtree_put, tval_subtree_remove.
  destruct (decide (key = k2)) as [->|]; [|done].
  by rewrite decide_False by done.
Qed.

Lemma Put_Remove_commute_witness :
  trie_wf demo_heap demo_ab
  ∧ (Z.of_nat (length (key_of "abc")) ≤ INT_MAX)%Z
  ∧ (Z.of_nat (length (key_of "ab")) ≤ INT_MAX)%Z
  ∧ key_of "abc" ≠ key_of "ab"
  ∧ ∃ ta ha tab hab tb hb tba hba,
      Put demo_ab (key_of "abc") (VUInt32 3) demo_heap = Some (ta, ha)
      ∧ Remove ta (key_of "ab") ha = Some (tab, hab)
      ∧ Remove demo_ab (key_of "ab") demo_heap = Some (tb, hb)
      ∧ Put tb (key_of "abc") (VUInt32 3) hb = Some (tba, hba)
      ∧ same_lookups hab tab hba tba.
Proof.
  split; [exact demo_ab_wf|].
  split; [vm_compute; discriminate|].
  split; [vm_compute; discriminate|].
  split; [discriminate|].
  apply Put_Remove_commute;
    [exact demo_ab_wf|vm_compute; discriminate|vm_compute; discriminate
    |discriminate].
Defined.



(** X8. A trie is a snapshot: whatever is allocated later, by operations
    on this trie or on any other, every [Get] on a well-formed trie
    returns in the extended store what it returned before. *)
Theorem Get_store_extension (h h' : heap) (t : Trie) :
  trie_wf h t → h ⊆ h' → same_lookups h' t h t.
Proof.
  intros [tr Hrepr] Hsub.
  apply (same_lookups_repr h' h t t tr tr); [|done|done].
  by eapply repr_mono.
Qed.

Lemma Get_store_extension_witness :
  trie_wf demo1.2 demo_a
  ∧ demo1.2 ⊆ demo_heap
  ∧ same_lookups demo_heap demo_a demo1.2 demo_a.
Proof.
  assert (Hwf : trie_wf demo1.2 demo_a).
  { apply (trie_wf_check 2). vm_compute. reflexivity. }
  assert (Hsub : demo1.2 ⊆ demo_heap).
  { apply map_subseteq_spec. intros l n Hl.
    apply elem_of_map_to_list in Hl. vm_compute in Hl.
    apply list_elem_of_In in Hl. simpl in Hl.
    destruct Hl as [[= <- <-]|[[= <- <-]|[]]]; vm_compute; reflexivity. }
  split; [exact Hwf|]. split; [exact Hsub|].
  apply Get_store_extension; [exact Hwf|exact Hsub].
Defined.

Lemma forallb_false_elem {A : Type} (f : A → bool) (l : list A) :
  forallb f l = false → ∃ x, f x = false.
Proof.
  induction l as [|a l IH]; simpl; [discriminate|].
  destruct (f a) eqn:E; [exact IH|]. intros _. by exists a.
Qed.

Lemma no_dead_has_key (t : tree) :
  t ≠ Nil → no_dead t → ∃ key v, tval (subtree t key) = Some v.
Proof.
  induction t as [|[v|] ch IH]; intros Hne Hnd; [done| |].
  - by exists [], v.
  - pose proof (Hnd []) as Hroot. simpl in Hroot.
    apply forallb_false_elem in Hroot as [n Hn].
    set (c := ascii_of_nat n) in *.
    destruct (IH c) as (key & v & Hv).
    + intros E. by rewrite E in Hn.
    + by apply (no_dead_child (Node None ch) c).
    + by exists (c :: key), v.
Qed.

(** X9. The empty trie is canonical: a trie built from the empty trie by
    [Put] and [Remove] has the absent root exactly when it holds no key,
    that is when every [Get] is absent.  So once the last key is removed
    the root is the null pointer again. *)
Theorem reachable_empty_iff_no_key (h : heap) (t : Trie) :
  reachable h t →
  (root_ t = None ↔ ∀ T key, Get T t key h = Some None).
Proof.
  intros Hreach.
  destruct (reachable_repr h t Hreach) as (tr & Hrepr & Hnd). split.
  - intros Hroot T key. unfold Get. by rewrite Hroot.
  - intros Habsent. destruct (root_ t) as [r|] eqn:Hroot; [|done].
    destruct (no_dead_has_key tr) as (key & v & Hv); [|done|].
    { intros ->. inversion Hrepr. }
    specialize (Habsent (type_of v) key).
    rewrite (Get_repr h t tr _ key) in Habsent by by rewrite Hroot.
    unfold tget in Habsent. rewrite Hv, decide_True in Habsent by done.
    discriminate.
Qed.

Lemma reachable_empty_iff_no_key_witness :
  reachable demo_heap demo_ab
  ∧ (root_ demo_ab = None
     ↔ ∀ T key, Get T demo_ab key demo_heap = Some None).
Proof.
  split; [exact demo_ab_reachable|].
  apply reachable_empty_iff_no_key. exact demo_ab_reachable.
Defined.

(** ** Path copying *)

Lemma Get_walk_weaken (h h' : heap) (q : list ascii) :
  h ⊆ h' →
  ∀ l x, Get_walk h l q = Some x → Get_walk h' l q = Some x.
Proof.
  intros Hsub. induction q as [|c q IH]; intros l x; simpl; [done|].
  destruct (h !! l) as [n|] eqn:Hl; [|done].
  rewrite (lookup_weaken _ _ _ _ Hl Hsub).
  destruct (children_ n !! c); [apply IH|done].
Qed.

Lemma Get_walk_stable (h h' : heap) (o : loc) (t : tree) (q : list ascii) :
  h ⊆ h' → repr h (Some o) t → Get_walk h' o q = Get_walk h o q.
Proof.
  intros Hsub Hrepr.
  destruct (Get_walk_repr h q o t Hrepr) as (ol & Hwalk & _).
  rewrite Hwalk. by apply (Get_walk_weaken h h').
Qed.

Lemma walk_below_stable (h h' : heap) (M : gmap ascii loc) (q : list ascii) :
  h ⊆ h' → wf_children h M → walk_below h' M q = walk_below h M q.
Proof.
  intros Hsub Hwf. destruct q as [|c q]; simpl; [done|].
  destruct (Hwf c) as [t Ht]. destruct (M !! c) as [o|]; [|done].
  by apply (Get_walk_stable h h' o t).
Qed.

Lemma Get_walk_below (h : heap) (l : loc) (n : TrieNode) (q : list ascii) :
  h !! l = Some n → q ≠ [] → Get_walk h l q = walk_below h (children_ n) q.
Proof. intros Hl Hq. destruct q as [|c q]; [done|]. simpl. by rewrite Hl. Qed.

Lemma shallow_wf_children (h : heap) (n : TrieNode) (t : tree) :
  shallow h n t → wf_children h (children_ n).
Proof. intros (_ & _ & H) c. eauto. Qed.

Lemma not_prefix_nil_inv (q p : list ascii) : ¬ q `prefix_of` p → q ≠ [].
Proof. intros H ->. apply H, prefix_nil. Qed.

Lemma copied_base (h0 h' : heap) (l : loc) (n : TrieNode) :
  h0 ⊆ h' → h' !! l = Some n → h0 !! l = None →
  wf_children h0 (children_ n) →
  copied h0 h' l (children_ n) [].
Proof.
  intros Hsub Hl Hl0 Hwf. split.
  - intros q Hq%not_prefix_nil_inv.
    rewrite (Get_walk_below h' l n q Hl Hq).
    by apply walk_below_stable.
  - intros q ->%prefix_nil_inv. by exists l.
Qed.

Lemma copied_step (h0 h' : heap) (parent l : loc) (np' : TrieNode)
    (M Ml : gmap ascii loc) (c : ascii) (p : list ascii) :
  h0 ⊆ h' → h' !! parent = Some np' → h0 !! parent = None →
  children_ np' = <[c := l]> M →
  wf_children h0 M →
  compat h0 M c Ml →
  copied h0 h' l Ml p →
  copied h0 h' parent M (c :: p).
Proof.
  intros Hsub Hp Hp0 Hch Hwf Hcompat [Hoff Hon]. split.
  - intros [|c2 q] Hq; [by destruct Hq; apply prefix_nil|].
    simpl. rewrite Hp, Hch.
    destruct (decide (c2 = c)) as [->|Hne].
    + rewrite lookup_insert_eq.
      assert (Hq' : ¬ q `prefix_of` p).
      { intros H. by apply Hq, prefix_cons. }
      rewrite (Hoff q Hq').
      apply (Hcompat q), (not_prefix_nil_inv q p Hq').
    + rewrite lookup_insert_ne by done.
      destruct (Hwf c2) as [t Ht]. destruct (M !! c2) as [o|]; [|done].
      by apply (Get_walk_stable h0 h' o t).
  - intros [|c2 q] Hq; [by exists parent|].
    pose proof (prefix_cons_inv_1 _ _ _ _ Hq) as ->.
    apply prefix_cons_inv_2 in Hq.
    simpl. rewrite Hp, Hch, lookup_insert_eq. by apply Hon.
Qed.

(** The descending loops again, now keeping track of which nodes are
    which: the loop allocates one node per level, and what it leaves
    behind is a copy of the path with every child off the path shared. *)
Section descend_copy.
Variable h0 : heap.
Variable key : list ascii.
Variable body : nat → loc → M loc.
Variable Inv : nat → TrieNode → Prop.
Variable hi : nat.

Hypothesis body_copy : ∀ i ch parent (h : heap) np tp,
  i < hi → key !! i = Some ch → h0 ⊆ h → h !! parent = Some np →
  shallow h0 np tp → Inv i np →
  ∃ nl,
    body i parent h
    = Some (fresh (dom h),
            <[parent := with_children (<[ch := fresh (dom h)]>) np]>
              (<[fresh (dom h) := nl]> h))
    ∧ shallow h0 nl (child tp ch) ∧ Inv (S i) nl
    ∧ compat h0 (children_ np) ch (children_ nl).

Hypothesis hi_le : hi ≤ length key.

Lemma descend_copy : ∀ count i parent (h : heap) np tp,
  i + count ≤ hi →
  h0 ⊆ h → h !! parent = Some np → h0 !! parent = None →
  shallow h0 np tp → Inv i np →
  ∃ last (h1 : heap) nlast,
    for_up i count body parent h = Some (last, h1)
    ∧ h0 ⊆ h1
    ∧ h1 !! last = Some nlast ∧ h0 !! last = None
    ∧ (last = parent ∨ h !! last = None)
    ∧ (∀ l, l ≠ parent → is_Some (h !! l) → h1 !! l = h !! l)
    ∧ shallow h0 nlast (subtree tp (take count (drop i key)))
    ∧ Inv (i + count) nlast
    ∧ size h1 = size h + count
    ∧ ∀ (h' : heap) rest,
        h0 ⊆ h' →
        (∀ l, l ≠ last → is_Some (h1 !! l) → h' !! l = h1 !! l) →
        copied h0 h' last (children_ nlast) rest →
        copied h0 h' parent (children_ np)
          (take count (drop i key) ++ rest).
Proof.
  induction count as [|c IH]; intros i parent h np tp Hi Hsub Hp Hp0 Hsh HI.
  - exists parent, h, np. rewrite Nat.add_0_r. simpl.
    split_and!; auto.
  - destruct (lookup_lt_is_Some_2 key i) as [ch Hch]; [lia|].
    rewrite (drop_S _ _ _ Hch). simpl take.
    destruct (body_copy i ch parent h np tp)
      as (nl & Hbody & Hshl & HIl & Hcompat); auto; [lia|].
    set (l := fresh (dom h)) in *.
    assert (Hl : h !! l = None) by apply fresh_lookup.
    assert (Hlp : l ≠ parent) by congruence.
    set (np' := with_children (<[ch := l]>) np) in *.
    set (h2 := <[parent := np']> (<[l := nl]> h)) in *.
    assert (Hsub2 : h0 ⊆ h2).
    { apply insert_subseteq_r; [done|].
      etrans; [exact Hsub|]. by apply insert_subseteq. }
    assert (Hl0 : h0 !! l = None) by (eapply lookup_weaken_None; eauto).
    assert (Hh2l : h2 !! l = Some nl).
    { unfold h2. rewrite lookup_insert_ne by done. apply lookup_insert_eq. }
    assert (Hh2p : h2 !! parent = Some np') by apply lookup_insert_eq.
    assert (Hsize2 : size h2 = S (size h)).
    { unfold h2. rewrite map_size_insert_Some.
      - by apply map_size_insert_None.
      - rewrite lookup_insert_ne by done. eauto. }
    destruct (IH (S i) l h2 nl (child tp ch))
      as (last & h1 & nlast & Hrun & Hsub1 & Hlast & Hlast0 & Hnew & Hframe
          & Hshlast & HIlast & Hsize & Hctx); auto; [lia|].
    exists last, h1, nlast.
    assert (Hlastp : last ≠ parent).
    { destruct Hnew as [->|Hnone]; [done|]. congruence. }
    assert (Hh1p : h1 !! parent = Some np').
    { rewrite Hframe; eauto. }
    split_and!; auto.
    + rewrite for_up_S, Hbody. exact Hrun.
    + right. destruct Hnew as [->|Hnone]; [done|].
      unfold h2 in Hnone.
      destruct (decide (last = l)) as [->|]; [done|].
      by rewrite !lookup_insert_ne in Hnone.
    + intros l' Hl'p Hsome.
      assert (l' ≠ l) by (intros ->; rewrite Hl in Hsome; by destruct Hsome).
      rewrite Hframe; auto.
      * unfold h2. by rewrite !lookup_insert_ne.
      * unfold h2. by rewrite !lookup_insert_ne.
    + by replace (i + S c) with (S i + c) by lia.
    + rewrite Hsize, Hsize2. lia.
    + intros h' rest Hsub' Hframe' Hcopied. simpl app.
      apply (copied_step h0 h' parent l np' (children_ np) (children_ nl));
        auto.
      * rewrite Hframe'; eauto.
      * by apply (shallow_wf_children h0 np tp).
Qed.
End descend_copy.

Lemma compat_Clone (h0 : heap) (M : gmap ascii loc) (c : ascii) (o : loc)
    (no : TrieNode) :
  M !! c = Some o → h0 !! o = Some no → compat h0 M c (children_ no).
Proof.
  intros HM Ho q Hq. simpl. rewrite HM.
  symmetry. by apply Get_walk_below.
Qed.

Lemma compat_fresh (h0 : heap) (M : gmap ascii loc) (c : ascii) :
  M !! c = None → compat h0 M c ∅.
Proof.
  intros HM [|c2 q] Hq; [done|]. simpl. by rewrite HM, lookup_empty.
Qed.

Lemma clone_body_copy (h0 : heap) (key : list ascii) (nodes : list loc)
    (sel : nat → TrieNode → TrieNode) (hi : nat) :
  hi ≤ length nodes →
  (∀ i n, i < hi → sel i n = Clone n) →
  ∀ i ch parent (h : heap) np tp,
    i < hi → key !! i = Some ch → h0 ⊆ h → h !! parent = Some np →
    shallow h0 np tp →
    chain h0 (children_ np) (drop i key) (drop i nodes) →
    ∃ nl,
      (ch ← at_index key i;
       old ← at_index nodes i;
       n ← deref old;
       new_node ← make_shared (sel i n);
       _ ← modify_children parent (<[ch := new_node]>);
       mret new_node) h
      = Some (fresh (dom h),
              <[parent := with_children (<[ch := fresh (dom h)]>) np]>
                (<[fresh (dom h) := nl]> h))
      ∧ shallow h0 nl (child tp ch)
      ∧ chain h0 (children_ nl) (drop (S i) key) (drop (S i) nodes)
      ∧ compat h0 (children_ np) ch (children_ nl).
Proof.
  intros Hhi Hsel i ch parent h np tp Hi Hch Hsub Hp Hsh Hchain.
  destruct (lookup_lt_is_Some_2 nodes i) as [old Hold]; [lia|].
  rewrite (drop_S _ _ _ Hch), (drop_S _ _ _ Hold) in Hchain.
  destruct Hchain as (Hc & no & Hno & Hrest).
  assert (Hshno : shallow h0 no (child tp ch)).
  { destruct Hsh as (_ & _ & H). specialize (H ch). rewrite Hc in H.
    apply repr_Some_inv in H as (n' & ? & _ & Hn' & Hsh'). congruence. }
  exists (Clone no). split_and!.
  - mstep (at_index_eq key i ch h Hch).
    mstep (at_index_eq nodes i old h Hold).
    mstep (deref_eq h old no (lookup_weaken _ _ _ _ Hno Hsub)).
    rewrite Hsel by done.
    assert (Hfp : fresh (dom h) ≠ parent).
    { intros E. pose proof (fresh_lookup h) as F. congruence. }
    unfold mbind at 1, M_bind at 1, make_shared at 1. simpl.
    erewrite (bind_eq (modify_children _ _)); [reflexivity|].
    apply modify_children_eq. by rewrite lookup_insert_ne.
  - by apply shallow_Clone.
  - by rewrite children_Clone.
  - rewrite children_Clone. by apply (compat_Clone h0 _ ch old).
Qed.

Lemma extend_body_copy (h0 : heap) (key : list ascii) :
  ∀ i ch parent (h : heap) np tp,
    key !! i = Some ch → h0 ⊆ h → h !! parent = Some np →
    shallow h0 np tp →
    (∀ c, key !! i = Some c → children_ np !! c = None) →
    ∃ nl,
      (ch ← at_index key i;
       child ← make_shared (TrieNode_new ∅);
       _ ← modify_children parent (<[ch := child]>);
       mret child) h
      = Some (fresh (dom h),
              <[parent := with_children (<[ch := fresh (dom h)]>) np]>
                (<[fresh (dom h) := nl]> h))
      ∧ shallow h0 nl (child tp ch)
      ∧ (∀ c, key !! S i = Some c → children_ nl !! c = None)
      ∧ compat h0 (children_ np) ch (children_ nl).
Proof.
  intros i ch parent h np tp Hch Hsub Hp Hsh Hnone.
  exists (TrieNode_new ∅). split_and!.
  - mstep (at_index_eq key i ch h Hch).
    assert (Hfp : fresh (dom h) ≠ parent).
    { intros E. pose proof (fresh_lookup h) as F. congruence. }
    unfold mbind at 1, M_bind at 1, make_shared at 1. simpl.
    erewrite (bind_eq (modify_children _ _)); [reflexivity|].
    apply modify_children_eq. by rewrite lookup_insert_ne.
  - rewrite (shallow_child_None h0 np tp ch Hsh (Hnone ch Hch)).
    apply shallow_new_Nil.
  - intros c _. apply lookup_empty.
  - apply compat_fresh. by apply Hnone.
Qed.

Lemma fresh_body_copy (h0 : heap) (key : list ascii) (v : value) (hi : nat) :
  hi ≤ length key - 1 →
  ∀ i ch parent (h : heap) np tp,
    i < hi → key !! i = Some ch → h0 ⊆ h → h !! parent = Some np →
    shallow h0 np tp →
    children_ np = ∅ →
    ∃ nl,
      (ch ← at_index key i;
       child ← make_shared
                 (if decide (i ≠ length key - 1) then TrieNode_new ∅
                  else TrieNodeWithValue_new ∅ v);
       _ ← modify_children parent (λ _, ∅);
       _ ← modify_children parent (<[ch := child]>);
       mret child) h
      = Some (fresh (dom h),
              <[parent := with_children (<[ch := fresh (dom h)]>) np]>
                (<[fresh (dom h) := nl]> h))
      ∧ shallow h0 nl (child tp ch)
      ∧ children_ nl = ∅
      ∧ compat h0 (children_ np) ch (children_ nl).
Proof.
  intros Hhi i ch parent h np tp Hi Hch Hsub Hp Hsh Hempty.
  exists (TrieNode_new ∅). split_and!.
  - mstep (at_index_eq key i ch h Hch).
    rewrite decide_True by lia.
    assert (Hfp : fresh (dom h) ≠ parent).
    { intros E. pose proof (fresh_lookup h) as F. congruence. }
    unfold mbind at 1, M_bind at 1, make_shared at 1. simpl.
    erewrite (bind_eq (modify_children _ _));
      [|apply modify_children_eq; by rewrite lookup_insert_ne].
    erewrite (bind_eq (modify_children _ _));
      [|apply modify_children_eq; apply lookup_insert_eq].
    unfold mret, M_ret. rewrite insert_insert_eq, with_children_twice.
    do 3 f_equal. unfold with_children. by rewrite Hempty.
  - rewrite (shallow_child_None h0 np tp ch Hsh); [apply shallow_new_Nil|].
    rewrite Hempty. apply lookup_empty.
  - reflexivity.
  - apply compat_fresh. rewrite Hempty. apply lookup_empty.
Qed.

(** The last step of [Put], with the nodes told apart: one node more,
    and below [last] a copy of the one-byte path [ch]. *)
Lemma final_link_copy (h0 h : heap) (last : loc) (nlast : TrieNode)
    (tl : tree) (ch : ascii) (chm : gmap ascii loc) (v : value) :
  h0 ⊆ h → h !! last = Some nlast → h0 !! last = None →
  shallow h0 nlast tl →
  wf_children h0 chm →
  compat h0 (children_ nlast) ch chm →
  let l := fresh (dom h) in
  let h' := <[last := with_children (<[ch := l]>) nlast]>
              (<[l := TrieNodeWithValue_new chm v]> h) in
  h0 ⊆ h'
  ∧ size h' = S (size h)
  ∧ (∀ l', l' ≠ last → is_Some (h !! l') → h' !! l' = h !! l')
  ∧ copied h0 h' last (children_ nlast) [ch].
Proof.
  intros Hsub Hlast Hlast0 Hsh Hwf Hcompat l h'.
  assert (Hl : h !! l = None) by apply fresh_lookup.
  assert (Hne : l ≠ last) by congruence.
  assert (Hl0 : h0 !! l = None) by (eapply lookup_weaken_None; eauto).
  assert (Hsub' : h0 ⊆ h').
  { apply insert_subseteq_r; [done|].
    etrans; [exact Hsub|]. by apply insert_subseteq. }
  split_and!; [done| | |].
  - unfold h'. rewrite map_size_insert_Some.
    + by apply map_size_insert_None.
    + rewrite lookup_insert_ne by done. eauto.
  - intros l' Hl' Hsome.
    assert (l' ≠ l) by (intros ->; rewrite Hl in Hsome; by destruct Hsome).
    unfold h'. by rewrite !lookup_insert_ne.
  - apply (copied_step h0 h' last l (with_children (<[ch := l]>) nlast)
             (children_ nlast) chm); auto.
    + apply lookup_insert_eq.
    + by apply (shallow_wf_children h0 nlast tl).
    + apply (copied_base h0 h' l (TrieNodeWithValue_new chm v)); auto.
      unfold h'. rewrite lookup_insert_ne by done. apply lookup_insert_eq.
Qed.

Lemma wf_children_empty (h : heap) : wf_children h ∅.
Proof. intros c. exists Nil. rewrite lookup_empty. constructor. Qed.

Lemma Put_copy_full_path (h : heap) (r : loc) (nroot : TrieNode)
    (tr : tree) (key : list ascii) (ns : list loc) (v : value) (m : nat) :
  length key = S m → length ns = length key →
  h !! r = Some nroot → shallow h nroot tr →
  chain h (children_ nroot) key ns →
  let new_root := fresh (dom h) in
  ∃ last (h' : heap),
    for_up 0 (length key) (λ i parent,
      ch ← at_index key i;
      old ← at_index ns i;
      n ← deref old;
      new_node ← make_shared
                   (if decide (i ≠ length key - 1) then Clone n
                    else TrieNodeWithValue_new (children_ n) v);
      _ ← modify_children parent (<[ch := new_node]>);
      mret new_node) new_root (<[new_root := Clone nroot]> h)
    = Some (last, h')
    ∧ size h' = size h + S (length key)
    ∧ copied h h' new_root (children_ nroot) key.
Proof.
  intros Hlen Hns Hr Hsh Hchain new_root.
  set (ha := <[new_root := Clone nroot]> h).
  assert (Hsizea : size ha = S (size h)).
  { apply map_size_insert_None, fresh_lookup. }
  match goal with
  | |- context [for_up 0 _ ?b new_root] => set (body := b)
  end.
  destruct (descend_copy h key body
              (λ i np, chain h (children_ np) (drop i key) (drop i ns)) m)
    with (count := m) (i := 0) (parent := new_root) (h := ha)
         (np := Clone nroot) (tp := tr)
    as (last & h1 & nlast & Hrun & Hsub1 & Hlast & Hlast0 & Hnew & Hframe
        & Hshlast & HIlast & Hsize1 & Hctx); auto.
  { pose (sel := λ (j : nat) (n : TrieNode),
              if decide (j ≠ length key - 1) then Clone n
              else TrieNodeWithValue_new (children_ n) v).
    intros. subst body. cbv beta.
    eapply (clone_body_copy h key ns sel m); eauto; [lia|].
    intros. unfold sel. rewrite decide_True; [done|lia]. }
  { lia. }
  { apply insert_fresh_subseteq. }
  { apply lookup_insert_eq. }
  { apply fresh_lookup. }
  { by apply shallow_Clone. }
  { by rewrite children_Clone. }
  destruct (lookup_lt_is_Some_2 key m) as [ch Hch]; [lia|].
  destruct (lookup_lt_is_Some_2 ns m) as [old Hold]; [lia|].
  simpl in HIlast. rewrite drop_0 in Hshlast, Hctx.
  rewrite (drop_S _ _ _ Hch), (drop_S _ _ _ Hold) in HIlast.
  destruct HIlast as (Hc & no & Hno & _).
  assert (Hshno : shallow h no (child (subtree tr (take m key)) ch)).
  { destruct Hshlast as (_ & _ & H). specialize (H ch). rewrite Hc in H.
    apply repr_Some_inv in H as (n' & ? & _ & Hn' & Hsh'). congruence. }
  rewrite Hlen, for_up_snoc, Hrun. simpl plus. subst body. cbv beta.
  mstep (at_index_eq key m ch h1 Hch).
  mstep (at_index_eq ns m old h1 Hold).
  mstep (deref_eq h1 old no (lookup_weaken _ _ _ _ Hno Hsub1)).
  rewrite decide_False by lia.
  unfold mbind at 1, M_bind at 1, make_shared at 1. cbv zeta.
  set (l := fresh (dom h1)).
  assert (Hl : h1 !! l = None) by apply fresh_lookup.
  assert (Hne : l ≠ last) by congruence.
  erewrite (bind_eq (modify_children _ _));
    [|apply modify_children_eq; by rewrite lookup_insert_ne].
  unfold mret, M_ret.
  destruct (final_link_copy h h1 last nlast _ ch (children_ no) v
              Hsub1 Hlast Hlast0 Hshlast)
    as (Hsub' & Hsize' & Hframe' & Hcopied').
  { by apply (shallow_wf_children h no _ Hshno). }
  { by apply (compat_Clone h _ ch old). }
  eexists _, _. split_and!; [reflexivity| |].
  - subst l. rewrite Hsize', Hsize1, Hsizea. lia.
  - rewrite <- (children_Clone nroot).
    rewrite <- (key_snoc key m ch Hlen Hch).
    by apply Hctx.
Qed.

Lemma Put_copy_partial_path (h : heap) (r : loc) (nroot : TrieNode)
    (tr : tree) (key : list ascii) (ns : list loc) (v : value) (c : ascii) :
  (Z.of_nat (length key) ≤ INT_MAX)%Z →
  key !! length ns = Some c →
  child (subtree tr (take (length ns) key)) c = Nil →
  h !! r = Some nroot → shallow h nroot tr →
  chain h (children_ nroot) key ns →
  let new_root := fresh (dom h) in
  ∃ (h' : heap),
    (parent ← for_up 0 (length ns) (λ i parent,
                 ch ← at_index key i;
                 old ← at_index ns i;
                 n ← deref old;
                 new_node ← make_shared (Clone n);
                 _ ← modify_children parent (<[ch := new_node]>);
                 mret new_node) new_root;
     index ← int_arith (Z.of_nat (length ns));
     size ← static_cast_int (length key);
     bound ← int_arith (size - 1);
     parent ← for_up (Z.to_nat index) (Z.to_nat (bound - index))
                (λ index parent,
                   ch ← at_index key index;
                   child ← make_shared (TrieNode_new ∅);
                   _ ← modify_children parent (<[ch := child]>);
                   mret child) parent;
     ch ← at_index key (length key - 1);
     leaf ← make_shared (TrieNodeWithValue_new ∅ v);
     _ ← modify_children parent (<[ch := leaf]>);
     mret (mkTrie (Some new_root))) (<[new_root := Clone nroot]> h)
    = Some (mkTrie (Some new_root), h')
    ∧ size h' = size h + S (length key)
    ∧ copied h h' new_root (children_ nroot) key.
Proof.
  intros Hmax Hc Hnil Hr Hsh Hchain new_root.
  set (ha := <[new_root := Clone nroot]> h).
  assert (Hsizea : size ha = S (size h)).
  { apply map_size_insert_None, fresh_lookup. }
  pose proof (lookup_lt_Some _ _ _ Hc) as Hlt.
  set (m1 := length ns) in *.
  set (m := length key - 1).
  match goal with
  | |- context [for_up 0 _ ?b new_root] => set (body1 := b)
  end.
  destruct (descend_copy h key body1
              (λ i np, chain h (children_ np) (drop i key) (drop i ns)) m1)
    with (count := m1) (i := 0) (parent := new_root) (h := ha)
         (np := Clone nroot) (tp := tr)
    as (last1 & h1 & nlast1 & Hrun1 & Hsub1 & Hlast1 & Hlast10 & Hnew1
        & Hframe1 & Hshlast1 & _ & Hsize1 & Hctx1); auto.
  { intros. subst body1. cbv beta.
    eapply (clone_body_copy h key ns (λ _ n, Clone n) m1); eauto. }
  { lia. }
  { apply insert_fresh_subseteq. }
  { apply lookup_insert_eq. }
  { apply fresh_lookup. }
  { by apply shallow_Clone. }
  { by rewrite children_Clone. }
  rewrite drop_0 in Hshlast1, Hctx1.
  mstep Hrun1.
  mstep (int_arith_eq (Z.of_nat m1) h1 ltac:(unfold INT_MIN; lia)).
  mstep (static_cast_int_eq (length key) h1 Hmax).
  mstep (int_arith_eq (Z.of_nat (length key) - 1) h1
           ltac:(unfold INT_MIN; lia)).
  rewrite Nat2Z.id.
  replace (Z.to_nat (Z.of_nat (length key) - 1 - Z.of_nat m1))
    with (m - m1) by (unfold m; lia).
  match goal with
  | |- context [for_up m1 _ ?b last1] => set (body2 := b)
  end.
  destruct (descend_copy h key body2
              (λ i np, ∀ c, key !! i = Some c → children_ np !! c = None) m)
    with (count := m - m1) (i := m1) (parent := last1) (h := h1)
         (np := nlast1) (tp := subtree tr (take m1 key))
    as (last2 & h2 & nlast2 & Hrun2 & Hsub2 & Hlast2 & Hlast20 & Hnew2
        & Hframe2 & Hshlast2 & HIlast2 & Hsize2 & Hctx2); auto.
  { intros. subst body2. cbv beta. eapply extend_body_copy; eauto. }
  { unfold m. lia. }
  { unfold m. lia. }
  { intros c' Hc'. assert (c' = c) as -> by congruence.
    eapply shallow_child_Nil; eauto. }
  mstep Hrun2.
  replace (m1 + (m - m1)) with m in HIlast2 by (unfold m; lia).
  destruct (lookup_lt_is_Some_2 key m) as [ch Hch]; [unfold m; lia|].
  fold m. mstep (at_index_eq key m ch h2 Hch).
  unfold mbind at 1, M_bind at 1, make_shared at 1. cbv zeta.
  set (l := fresh (dom h2)).
  assert (Hl : h2 !! l = None) by apply fresh_lookup.
  assert (Hne : l ≠ last2) by congruence.
  erewrite (bind_eq (modify_children _ _));
    [|apply modify_children_eq; by rewrite lookup_insert_ne].
  unfold mret, M_ret.
  set (p2 := take (m - m1) (drop m1 key)) in *.
  destruct (final_link_copy h h2 last2 nlast2 _ ch ∅ v
              Hsub2 Hlast2 Hlast20 Hshlast2)
    as (Hsub' & Hsize' & Hframe' & Hcopied').
  { apply wf_children_empty. }
  { apply compat_fresh. by apply HIlast2. }
  eexists. split_and!; [reflexivity| |].
  - subst l. rewrite Hsize', Hsize2, Hsize1, Hsizea. unfold m. lia.
  - assert (Hkey : take m1 key ++ p2 ++ [ch] = key).
    { unfold p2. rewrite app_assoc, take_take_drop.
      replace (m1 + (m - m1)) with m by (unfold m; lia).
      apply key_snoc; [unfold m; lia|done]. }
    rewrite <- (children_Clone nroot), <- Hkey.
    apply Hctx1; [done| |by apply Hctx2].
    intros l' Hl'1 Hsome.
    assert (l' ≠ last2).
    { destruct Hnew2 as [->|Hnone]; [done|].
      intros ->. rewrite Hnone in Hsome. by destruct Hsome. }
    rewrite Hframe'; [by apply Hframe2|done|].
    by rewrite Hframe2.
Qed.

Lemma Put_size_empty_trie (h : heap) (t : Trie) (key : list ascii)
    (v : value) :
  root_ t = None → key ≠ [] →
  ∃ t' h', Put t key v h = Some (t', h')
           ∧ size h' = size h + S (length key).
Proof.
  intros Hroot Hkey. unfold Put. rewrite decide_False, Hroot by done.
  destruct (length key) as [|m] eqn:Hlen; [by destruct key|].
  unfold mbind at 1, M_bind at 1, make_shared at 1. cbv zeta.
  set (new_root := fresh (dom h)).
  set (ha := <[new_root := TrieNode_new ∅]> h).
  assert (Hsizea : size ha = S (size h)).
  { apply map_size_insert_None, fresh_lookup. }
  match goal with
  | |- context [for_up 0 (S m) ?b new_root] => set (body := b)
  end.
  destruct (descend_copy h key body (λ _ n, children_ n = ∅) m) with
    (count := m) (i := 0) (parent := new_root) (h := ha)
    (np := TrieNode_new ∅) (tp := Nil)
    as (last & h1 & nlast & Hrun & Hsub1 & Hlast & Hlast0 & Hnew & Hframe
        & Hshlast & HIlast & Hsize1 & _); auto.
  { intros. subst body. cbv beta. rewrite <- Hlen.
    eapply fresh_body_copy; eauto. lia. }
  { lia. }
  { apply insert_fresh_subseteq. }
  { apply lookup_insert_eq. }
  { apply fresh_lookup. }
  { apply shallow_new_Nil. }
  destruct (lookup_lt_is_Some_2 key m) as [ch Hch]; [lia|].
  unfold mbind at 1, M_bind at 1. rewrite for_up_snoc, Hrun. simpl plus.
  subst body. cbv beta.
  mstep (at_index_eq key m ch h1 Hch).
  rewrite decide_False by lia.
  unfold mbind at 1, M_bind at 1, make_shared at 1. cbv zeta.
  set (l := fresh (dom h1)).
  assert (Hl : h1 !! l = None) by apply fresh_lookup.
  assert (Hne : l ≠ last) by congruence.
  erewrite (bind_eq (modify_children _ _));
    [|apply modify_children_eq; by rewrite lookup_insert_ne].
  erewrite (bind_eq (modify_children _ _));
    [|apply modify_children_eq; apply lookup_insert_eq].
  unfold mret, M_ret. rewrite insert_insert_eq.
  eexists _, _. split; [reflexivity|].
  rewrite map_size_insert_Some.
  - rewrite map_size_insert_None by done. rewrite Hsize1, Hsizea. lia.
  - rewrite lookup_insert_ne by done. eauto.
Qed.

(** [Put] on a trie with a root: the nodes allocated, and the copy of
    the path of the key that the new root heads. *)
Lemma Put_copy (h : heap) (t : Trie) (r : loc) (nroot : TrieNode)
    (tr : tree) (key : list ascii) (v : value) :
  root_ t = Some r →
  (Z.of_nat (length key) ≤ INT_MAX)%Z →
  repr h (Some r) tr → h !! r = Some nroot →
  ∃ r' h', Put t key v h = Some (mkTrie (Some r'), h')
           ∧ size h' = size h + S (length key)
           ∧ copied h h' r' (children_ nroot) key.
Proof.
  intros Hroot Hmax Hrepr Hr.
  pose proof (repr_Some_inv _ _ _ Hrepr) as (n' & chr & Htr & Hr' & Hsh).
  assert (n' = nroot) as -> by congruence.
  destruct (decide (key = [])) as [->|Hkey].
  { destruct (Put_empty_key_eq h t v)
      as [(Hn & _)|[(r0 & Hr0 & Hn & _)|(r0 & n & Hr0 & Hn & Hrun)]];
      [congruence|congruence|].
    assert (r0 = r) as -> by congruence.
    assert (n = nroot) as -> by congruence.
    eexists _, _. split_and!; [exact Hrun| |].
    - rewrite map_size_insert_None by apply fresh_lookup. simpl. lia.
    - apply (copied_base h _ _ (TrieNodeWithValue_new (children_ nroot) v)).
      + apply insert_fresh_subseteq.
      + apply lookup_insert_eq.
      + apply fresh_lookup.
      + by apply (shallow_wf_children h nroot tr). }
  unfold Put. rewrite decide_False, Hroot by done.
  destruct (Put_walk_spec h key r [] nroot tr Hr Hsh)
    as (ns & Hwalk & Hlen & Hchain & Hend).
  change ([] ++ ns) with ns in Hwalk.
  mstep Hwalk. cbv beta iota.
  mstep (deref_eq h r nroot Hr).
  unfold mbind at 1, M_bind at 1, make_shared at 1. cbv zeta.
  destruct Hend as [Hfull|(c & Hc & Hnil)].
  - rewrite decide_True by (apply drop_ge; lia).
    destruct (length key) as [|m] eqn:Hm; [by destruct key|].
    rewrite <- Hm in *.
    destruct (Put_copy_full_path h r nroot tr key ns v m)
      as (last & h' & Hrun & Hsize & Hcopied); auto.
    mstep Hrun. eexists _, _. split_and!; [reflexivity|done|done].
  - pose proof (lookup_lt_Some _ _ _ Hc) as Hlt.
    rewrite decide_False.
    2:{ intros E. apply (f_equal length) in E.
        rewrite length_drop in E. simpl in E. lia. }
    destruct (Put_copy_partial_path h r nroot tr key ns v c)
      as (h' & Hrun & Hsize & Hcopied); auto.
    eexists _, _. split_and!; [exact Hrun|done|done].
Qed.

(** X10. Structural sharing in [Put], for a key [k] of at most
    [INT_MAX] bytes: on a trie with a root, the nodes on the path of the
    key in the new trie are all newly allocated, and a walk along any key
    that is not a prefix of [k] ends in the new trie at the very node
    (the same pointer) where it ended in the receiver. Nothing outside
    the path of the key is copied. *)
Theorem Put_shares_subtrees (h : heap) (t : Trie) (r : loc)
    (k : list ascii) (v : value) :
  trie_wf h t →
  root_ t = Some r →
  (Z.of_nat (length k) ≤ INT_MAX)%Z →
  ∃ r' h',
    Put t k v h = Some (mkTrie (Some r'), h')
    ∧ (∀ q, q `prefix_of` k →
            ∃ l, Get_walk h' r' q = Some (Some l) ∧ h !! l = None)
    ∧ (∀ q, ¬ q `prefix_of` k → Get_walk h' r' q = Get_walk h r q).
Proof.
  intros [tr Hrepr] Hroot Hmax. rewrite Hroot in Hrepr.
  pose proof (repr_Some_inv _ _ _ Hrepr) as (nroot & ? & _ & Hr & _).
  destruct (Put_copy h t r nroot tr k v Hroot Hmax Hrepr Hr)
    as (r' & h' & Hrun & _ & Hoff & Hon).
  exists r', h'. split_and!; [done|done|].
  intros q Hq. rewrite (Hoff q Hq). symmetry.
  apply Get_walk_below; [done|]. by apply (not_prefix_nil_inv q k).
Qed.

Lemma Put_shares_subtrees_witness :
  ∃ r,
    trie_wf demo_heap demo_ab
    ∧ root_ demo_ab = Some r
    ∧ (Z.of_nat (length (key_of "ac")) ≤ INT_MAX)%Z
    ∧ ∃ r' h',
        Put demo_ab (key_of "ac") (VUInt32 3) demo_heap
        = Some (mkTrie (Some r'), h')
        ∧ (∀ q, q `prefix_of` key_of "ac" →
                ∃ l, Get_walk h' r' q = Some (Some l)
                     ∧ demo_heap !! l = None)
        ∧ (∀ q, ¬ q `prefix_of` key_of "ac" →
                Get_walk h' r' q = Get_walk demo_heap r q).
Proof.
  eexists. split; [exact demo_ab_wf|].
  split; [vm_compute; reflexivity|].
  split; [vm_compute; discriminate|].
  apply (Put_shares_subtrees demo_heap demo_ab);
    [exact demo_ab_wf|vm_compute; reflexivity|vm_compute; discriminate].
Defined.

(** X11. For a key of at most [INT_MAX] bytes, [Put] allocates one node
    per byte of the key and one more, whatever the size of the trie and
    whether or not the key was there: the store grows by exactly
    [length k + 1] nodes. *)
Theorem Put_allocation (h : heap) (t : Trie) (k : list ascii) (v : value) :
  trie_wf h t →
  (Z.of_nat (length k) ≤ INT_MAX)%Z →
  ∃ t' h', Put t k v h = Some (t', h') ∧ size h' = size h + length k + 1.
Proof.
  intros [tr Hrepr] Hmax. destruct (root_ t) as [r|] eqn:Hroot.
  - pose proof (repr_Some_inv _ _ _ Hrepr) as (nroot & ? & _ & Hr & _).
    destruct (Put_copy h t r nroot tr k v Hroot Hmax Hrepr Hr)
      as (r' & h' & Hrun & Hsize & _).
    eexists _, _. split; [exact Hrun|lia].
  - destruct (decide (k = [])) as [->|Hk].
    + destruct (Put_empty_key_eq h t v)
        as [(_ & Hrun)|[(r0 & Hr0 & _)|(r0 & n & Hr0 & _)]];
        [|congruence|congruence].
      eexists _, _. split; [exact Hrun|].
      rewrite map_size_insert_None by apply fresh_lookup. simpl. lia.
    + destruct (Put_size_empty_trie h t k v Hroot Hk)
        as (t' & h' & Hrun & Hsize).
      exists t', h'. split; [done|lia].
Qed.

Lemma Put_allocation_witness :
  trie_wf demo_heap demo_ab
  ∧ (Z.of_nat (length (key_of "abcd")) ≤ INT_MAX)%Z
  ∧ ∃ t' h',
      Put demo_ab (key_of "abcd") (VUInt32 4) demo_heap = Some (t', h')
      ∧ size h' = size demo_heap + length (key_of "abcd") + 1.
Proof.
  split; [exact demo_ab_wf|].
  split; [vm_compute; discriminate|].
  apply Put_allocation; [exact demo_ab_wf|vm_compute; discriminate].
Defined.










(** Sharing on a concrete store: after [Put("ac", 3)] on
    [{a ↦ 1, ab ↦ 2}] the node of ["ab"] is the same pointer in both
    versions, while the root and the node of ["a"] are new ones. *)
Example sharing_on_demo :
  match root_ demo_ab, Put demo_ab (key_of "ac") (VUInt32 3) demo_heap with
  | Some r, Some (t', h') =>
      match root_ t' with
      | Some r' =>
          Get_walk h' r' (key_of "ab") = Get_walk demo_heap r (key_of "ab")
          ∧ Get_walk h' r' (key_of "a") ≠ Get_walk demo_heap r (key_of "a")
          ∧ r' ≠ r
          ∧ size h' = size demo_heap + 3
      | None => False
      end
  | _, _ => False
  end.
Proof.
  vm_compute.
  split_and!; [reflexivity|discriminate|discriminate|reflexivity].
Qed.

(** ** [Put] with a key that does not fit [int] *)

Lemma wrap_int_range (z : Z) : (INT_MIN ≤ wrap_int z ≤ INT_MAX)%Z.
Proof.
  unfold INT_MIN, INT_MAX, wrap_int.
  pose proof (Z.mod_pos_bound (z + 2 ^ 31) (2 ^ 32)). lia.
Qed.

Lemma chain_subtree (h : heap) :
  ∀ (ns : list loc) (ks : list ascii) (n : TrieNode) (t : tree),
    shallow h n t → chain h (children_ n) ks ns →
    ∀ i, i < length ns → subtree t (take (S i) ks) ≠ Nil.
Proof.
  induction ns as [|o ns IH]; intros ks n t Hsh Hchain i Hi;
    [simpl in Hi; lia|].
  destruct ks as [|c ks]; [done|]. destruct Hchain as (Hc & no & Hno & Hrest).
  assert (Hshno : shallow h no (child t c)).
  { destruct Hsh as (_ & _ & H). specialize (H c). rewrite Hc in H.
    apply repr_Some_inv in H as (n' & ? & _ & Hn' & Hsh'). congruence. }
  assert (Hne : child t c ≠ Nil).
  { destruct Hsh as (_ & _ & H). specialize (H c). rewrite Hc in H.
    intros E. rewrite E in H. inversion H. }
  destruct i as [|i]; [done|].
  change (take (S (S i)) (c :: ks)) with (c :: take (S i) ks).
  simpl subtree. apply (IH ks no (child t c) Hshno Hrest). simpl in Hi. lia.
Qed.

(** The last step of [Put] when the node along [ch] is made without
    looking at what [last] had there. *)
Lemma final_link_over (h0 h : heap) (last : loc) (nlast : TrieNode)
    (tl : tree) (ch : ascii) (v : value) :
  h0 ⊆ h → h !! last = Some nlast → h0 !! last = None →
  shallow h0 nlast tl →
  let l := fresh (dom h) in
  let h' := <[last := with_children (<[ch := l]>) nlast]>
              (<[l := TrieNodeWithValue_new ∅ v]> h) in
  h0 ⊆ h'
  ∧ repr h' (Some last) (overwrite tl ch v)
  ∧ ∀ l', l' ≠ last → is_Some (h !! l') → h' !! l' = h !! l'.
Proof.
  intros Hsub Hlast Hlast0 Hsh l h'.
  assert (Hl : h !! l = None) by apply fresh_lookup.
  assert (Hne : l ≠ last) by congruence.
  assert (Hsub' : h0 ⊆ h').
  { apply insert_subseteq_r; [done|].
    etrans; [exact Hsub|]. by apply insert_subseteq. }
  split_and!; [done| |].
  - apply (repr_intro h' last (with_children (<[ch := l]>) nlast)).
    + apply lookup_insert_eq.
    + apply Hsh.
    + apply Hsh.
    + intros c. simpl. destruct (decide (c = ch)) as [->|Hc].
      * rewrite lookup_insert_eq, upd_eq.
        apply (repr_intro h' l (TrieNodeWithValue_new ∅ v)); try done.
        -- unfold h'. rewrite lookup_insert_ne by done.
           apply lookup_insert_eq.
        -- intros c. simpl. rewrite lookup_empty. constructor.
      * rewrite lookup_insert_ne, upd_ne by done.
        eapply repr_mono; [exact Hsub'|]. apply Hsh.
  - intros l' Hl' Hsome.
    assert (l' ≠ l) by (intros ->; rewrite Hl in Hsome; by destruct Hsome).
    unfold h'. by rewrite !lookup_insert_ne.
Qed.

(** [Put] on a trie that holds the first [m1] bytes of the key and not
    the next one, when the size of the key, read as an [int], is not
    above [m1 + 1]: the loop that should extend the path does not run,
    and the value node is linked below the node reached, along the last
    byte of the key.  This is the case of every key of more than 2^31
    and less than 2^32 bytes; with exactly 2^31 bytes the subtraction
    [size - 1] overflows. *)
Lemma Put_skipped (h : heap) (t : Trie) (r : loc) (tr : tree)
    (key : list ascii) (v : value) (m1 : nat) (c ch : ascii) :
  root_ t = Some r → repr h (Some r) tr →
  (∀ i, i < m1 → subtree tr (take (S i) key) ≠ Nil) →
  key !! m1 = Some c →
  child (subtree tr (take m1 key)) c = Nil →
  last key = Some ch →
  (INT_MIN < wrap_int (Z.of_nat (length key)))%Z →
  (wrap_int (Z.of_nat (length key)) - 1 ≤ Z.of_nat m1)%Z →
  (Z.of_nat m1 ≤ INT_MAX)%Z →
  ∃ t' h',
    Put t key v h = Some (t', h') ∧ h ⊆ h'
    ∧ repr h' (root_ t')
        (graft tr (take m1 key) (overwrite (subtree tr (take m1 key)) ch v)).
Proof.
  intros Hroot Hrepr Hpath Hc Hnil Hlast Hmin Hskip Hm1.
  assert (Hkey : key ≠ []) by (intros ->; done).
  unfold Put. rewrite decide_False, Hroot by done.
  apply repr_Some_inv in Hrepr as (nroot & chr & Htr & Hr & Hsh).
  destruct (Put_walk_spec h key r [] nroot tr Hr Hsh)
    as (ns & Hwalk & Hlen & Hchain & Hend).
  change ([] ++ ns) with ns in Hwalk.
  assert (Hns : length ns = m1).
  { pose proof (lookup_lt_Some _ _ _ Hc) as Hlt.
    destruct (Nat.lt_trichotomy (length ns) m1) as [Hlt1|[Heq|Hgt]];
      [|done|].
    - destruct Hend as [Hfull|(c' & Hc' & Hnil')]; [lia|].
      destruct (Hpath (length ns) Hlt1).
      by rewrite (subtree_take_S tr key (length ns) c' Hc').
    - destruct (chain_subtree h ns key nroot tr Hsh Hchain m1 Hgt).
      by rewrite (subtree_take_S tr key m1 c Hc). }
  rewrite Hns in *. clear Hend.
  pose proof (lookup_lt_Some _ _ _ Hc) as Hlt.
  mstep Hwalk. cbv beta iota.
  mstep (deref_eq h r nroot Hr).
  unfold mbind at 1, M_bind at 1, make_shared at 1. cbv zeta.
  rewrite decide_False.
  2:{ intros E. apply (f_equal length) in E.
      rewrite length_drop in E. simpl in E. lia. }
  rewrite Hns.
  set (new_root := fresh (dom h)).
  set (ha := <[new_root := Clone nroot]> h).
  match goal with
  | |- context [for_up 0 _ ?b new_root] => set (body1 := b)
  end.
  destruct (descend_ok h key body1
              (λ i np, chain h (children_ np) (drop i key) (drop i ns)) m1)
    with (count := m1) (i := 0) (parent := new_root) (h := ha)
         (np := Clone nroot) (tp := tr)
    as (last1 & h1 & nlast1 & Hrun1 & Hsub1 & Hlast1 & Hlast10 & Hnew1
        & Hframe1 & Hshlast1 & _ & Hctx1); auto.
  { intros. subst body1. cbv beta.
    eapply (clone_body_ok h key ns (λ _ n, Clone n) m1); eauto. lia. }
  { apply insert_fresh_subseteq. }
  { apply lookup_insert_eq. }
  { apply fresh_lookup. }
  { by apply shallow_Clone. }
  { by rewrite children_Clone. }
  rewrite drop_0 in Hshlast1, Hctx1.
  mstep Hrun1.
  mstep (int_arith_eq (Z.of_nat m1) h1 ltac:(unfold INT_MIN; lia)).
  unfold static_cast_int.
  unfold mbind at 1, M_bind at 1, mret at 1, M_ret at 1.
  pose proof (wrap_int_range (Z.of_nat (length key))) as Hrange.
  mstep (int_arith_eq (wrap_int (Z.of_nat (length key)) - 1) h1
           ltac:(lia)).
  replace (Z.to_nat (wrap_int (Z.of_nat (length key)) - 1 - Z.of_nat m1))
    with 0 by lia.
  unfold for_up at 1. unfold mbind at 1, M_bind at 1, mret at 1, M_ret at 1.
  assert (Hch : key !! (length key - 1) = Some ch).
  { rewrite last_lookup in Hlast.
    by replace (length key - 1) with (pred (length key)) by lia. }
  mstep (at_index_eq key (length key - 1) ch h1 Hch).
  unfold mbind at 1, M_bind at 1, make_shared at 1. cbv zeta.
  set (l := fresh (dom h1)).
  assert (Hl : h1 !! l = None) by apply fresh_lookup.
  assert (Hne : l ≠ last1) by congruence.
  erewrite (bind_eq (modify_children _ _));
    [|apply modify_children_eq; by rewrite lookup_insert_ne].
  unfold mret, M_ret.
  destruct (final_link_over h h1 last1 nlast1 _ ch v
              Hsub1 Hlast1 Hlast10 Hshlast1)
    as (Hsub' & Hrepr' & Hframe').
  eexists _, _. split_and!; [reflexivity|exact Hsub'|].
  simpl root_. by apply Hctx1.
Qed.

Lemma repr_walk_None (h : heap) (r : loc) (tr : tree) (q : list ascii) :
  repr h (Some r) tr → Get_walk h r q = Some None → subtree tr q = Nil.
Proof.
  intros Hrepr Hwalk.
  destruct (Get_walk_repr h q r tr Hrepr) as (ol & Hwalk' & Hol).
  rewrite Hwalk in Hwalk'. injection Hwalk' as <-.
  by apply repr_None_inv in Hol.
Qed.

Lemma demo_a_wf_own : trie_wf demo1.2 demo_a.
Proof. apply (trie_wf_check 2). vm_compute. reflexivity. Qed.

Lemma wrap_int_long : wrap_int 2147483649 = (-2147483647)%Z.
Proof. reflexivity. Qed.

(** The two orders of [Put] on [{a ↦ 1}] with a key of 2^31 + 1 zero
    bytes, given as its first two bytes and the rest, and the key of one
    zero byte. *)
Lemma Put_order_long (rest : list ascii) :
  Z.of_nat (length rest) = 2147483647%Z →
  last (zero :: zero :: rest) = Some zero →
  ∃ ta ha tab hab tb hb tba hba,
    Put demo_a (zero :: zero :: rest) (VUInt32 9) demo1.2 = Some (ta, ha)
    ∧ Put ta [zero] (VUInt32 7) ha = Some (tab, hab)
    ∧ Put demo_a [zero] (VUInt32 7) demo1.2 = Some (tb, hb)
    ∧ Put tb (zero :: zero :: rest) (VUInt32 9) hb = Some (tba, hba)
    ∧ Get TUInt32 tab [zero; zero] hab = Some None
    ∧ Get TUInt32 tba [zero; zero] hba = Some (Some (VUInt32 9)).
Proof.
  intros Hrest Hlast.
  set (k1 := zero :: zero :: rest) in *.
  assert (Hlen : Z.of_nat (length k1) = 2147483649%Z).
  { unfold k1. cbn [length]. lia. }
  assert (Hmin : (INT_MIN < wrap_int (Z.of_nat (length k1)))%Z).
  { rewrite Hlen, wrap_int_long. unfold INT_MIN. lia. }
  assert (Hskip : ∀ m1 : nat,
             (wrap_int (Z.of_nat (length k1)) - 1 ≤ Z.of_nat m1)%Z).
  { intros m1. rewrite Hlen, wrap_int_long. lia. }
  destruct demo_a_wf_own as [tr Hrepr].
  destruct (root_ demo_a) as [r|] eqn:Hroot;
    [|vm_compute in Hroot; discriminate].
  assert (Hnil : child tr zero = Nil).
  { apply (repr_walk_None demo1.2 r tr [zero] Hrepr).
    vm_compute in Hroot. injection Hroot as <-. vm_compute. reflexivity. }
  (* the long key first *)
  destruct (Put_skipped demo1.2 demo_a r tr k1 (VUInt32 9) 0 zero zero)
    as (ta & ha & Hruna & _ & Hrepra); auto.
  { intros i Hi. lia. }
  { unfold INT_MAX. lia. }
  destruct (Put_refines ha ta _ [zero] (VUInt32 7) Hrepra)
    as (tab & hab & Hrunab & _ & Hreprab).
  { right. unfold INT_MAX. simpl. lia. }
  (* the short key first *)
  destruct (Put_refines demo1.2 demo_a tr [zero] (VUInt32 7))
    as (tb & hb & Hrunb & _ & Hreprb).
  { by rewrite Hroot. }
  { right. unfold INT_MAX. simpl. lia. }
  destruct (root_ tb) as [rb|] eqn:Hrootb; [|inversion Hreprb].
  destruct (Put_skipped hb tb rb _ k1 (VUInt32 9) 1 zero zero
              Hrootb Hreprb)
    as (tba & hba & Hrunba & _ & Hreprba); auto.
  { intros i Hi. assert (i = 0) as -> by lia.
    unfold k1. simpl. by rewrite upd_eq. }
  { unfold k1. simpl. by rewrite Hnil. }
  { unfold INT_MAX. lia. }
  exists ta, ha, tab, hab, tb, hb, tba, hba.
  split_and!; [done|done|done|done| |].
  - rewrite (Get_repr hab tab _ TUInt32 [zero; zero] Hreprab), tget_put.
    rewrite decide_False by done.
    unfold tget, overwrite. simpl. reflexivity.
  - rewrite (Get_repr hba tba _ TUInt32 [zero; zero] Hreprba).
    unfold tget, overwrite, k1. simpl. reflexivity.
Qed.

Lemma last_zeros (n : nat) : last (zero :: replicate n zero) = Some zero.
Proof.
  induction n as [|n IH]; [done|].
  by rewrite replicate_S, last_cons_cons.
Qed.

Lemma long_key_eq :
  long_key = zero :: zero :: replicate (Z.to_nat 2147483647) zero.
Proof.
  unfold long_key.
  replace (Z.to_nat 2147483649) with (S (S (Z.to_nat 2147483647))) by lia.
  by rewrite !replicate_S.
Qed.

(** C10. [Put] does not commute on every pair of distinct keys. The
    branch of [Put] that extends a partial path converts the size of the
    key to [int] (trie.cpp:114): for a key of 2^31 + 1 bytes the
    conversion gives -2147483647, the loop that creates the missing nodes
    is skipped, and the value is linked right below the last node found,
    along the last byte of the key. On [{a ↦ 1}], with the key of
    2^31 + 1 zero bytes and the key of one zero byte, both orders of the
    two calls return; [Get] of the key of two zero bytes is absent when
    the long key is put first, and 9 when the short key is put first. *)
Theorem Put_order_matters_long_key :
  Put empty_trie (key_of "a") (VUInt32 1) ∅ = Some (demo_a, demo1.2)
  ∧ Z.of_nat (length long_key) = 2147483649%Z
  ∧ long_key ≠ [zero]
  ∧ ∃ ta ha tab hab tb hb tba hba,
      Put demo_a long_key (VUInt32 9) demo1.2 = Some (ta, ha)
      ∧ Put ta [zero] (VUInt32 7) ha = Some (tab, hab)
      ∧ Put demo_a [zero] (VUInt32 7) demo1.2 = Some (tb, hb)
      ∧ Put tb long_key (VUInt32 9) hb = Some (tba, hba)
      ∧ Get TUInt32 tab [zero; zero] hab = Some None
      ∧ Get TUInt32 tba [zero; zero] hba = Some (Some (VUInt32 9)).
Proof.
  split; [vm_compute; reflexivity|].
  split; [unfold long_key; rewrite length_replicate; lia|].
  rewrite long_key_eq.
  split; [discriminate|].
  apply Put_order_long.
  - rewrite length_replicate. lia.
  - rewrite last_cons_cons. apply last_zeros.
Qed.

Lemma Put_long_gen (rest : list ascii) :
  Z.of_nat (length rest) = 2147483647%Z →
  last (zero :: zero :: rest) = Some zero →
  ∃ t1 h1,
    Put demo_a (zero :: zero :: rest) (VUInt32 9) demo1.2 = Some (t1, h1)
    ∧ (∀ T, Get T t1 (zero :: zero :: rest) h1 = Some None)
    ∧ Get TUInt32 t1 [zero] h1 = Some (Some (VUInt32 9))
    ∧ Get TUInt32 t1 (key_of "a") h1 = Some (Some (VUInt32 1))
    ∧ Remove t1 (zero :: zero :: rest) h1 = Some (t1, h1).
Proof.
  intros Hrest Hlast.
  set (k1 := zero :: zero :: rest) in *.
  assert (Hlen : Z.of_nat (length k1) = 2147483649%Z).
  { unfold k1. cbn [length]. lia. }
  destruct demo_a_wf_own as [tr Hrepr].
  assert (Ha : tget TUInt32 tr (key_of "a") = Some (VUInt32 1)).
  { pose proof (Get_repr demo1.2 demo_a tr TUInt32 (key_of "a") Hrepr) as H.
    assert (Hget : Get TUInt32 demo_a (key_of "a") demo1.2
                   = Some (Some (VUInt32 1))) by (vm_compute; reflexivity).
    congruence. }
  destruct (root_ demo_a) as [r|] eqn:Hroot;
    [|vm_compute in Hroot; discriminate].
  assert (Hnil : child tr zero = Nil).
  { apply (repr_walk_None demo1.2 r tr [zero] Hrepr).
    vm_compute in Hroot. injection Hroot as <-. vm_compute. reflexivity. }
  destruct (Put_skipped demo1.2 demo_a r tr k1 (VUInt32 9) 0 zero zero)
    as (t1 & h1 & Hrun & _ & Hrepr1); auto.
  { intros i Hi. lia. }
  { rewrite Hlen, wrap_int_long. unfold INT_MIN. lia. }
  { rewrite Hlen, wrap_int_long. lia. }
  { unfold INT_MAX. lia. }
  simpl in Hrepr1.
  assert (Hsub : subtree (overwrite tr zero (VUInt32 9)) k1 = Nil).
  { unfold k1, overwrite. simpl. apply subtree_Nil. }
  exists t1, h1. split_and!; [done| | | |].
  - intros T. rewrite (Get_repr h1 t1 _ T k1 Hrepr1).
    unfold tget. by rewrite Hsub.
  - rewrite (Get_repr h1 t1 _ TUInt32 [zero] Hrepr1).
    unfold tget, overwrite. simpl. reflexivity.
  - rewrite (Get_repr h1 t1 _ TUInt32 (key_of "a") Hrepr1), <- Ha.
    unfold tget, overwrite. simpl. reflexivity.
  - apply Remove_missing_same, (repr_missing h1 t1 _ k1 Hrepr1).
    by rewrite Hsub.
Qed.

(** X15. What [Put] does with a key that does not fit [int]: on
    [{a ↦ 1}], [Put] of the key of 2^31 + 1 zero bytes with value 9
    returns a trie where that key has no value, the key of one zero byte
    has the value 9 and the key a still has its value; [Remove] of the
    long key on that trie returns the very same trie, so the value under
    the short key stays. *)
Theorem Put_long_key_misplaced :
  ∃ t1 h1,
    Put demo_a long_key (VUInt32 9) demo1.2 = Some (t1, h1)
    ∧ (∀ T, Get T t1 long_key h1 = Some None)
    ∧ Get TUInt32 t1 [zero] h1 = Some (Some (VUInt32 9))
    ∧ Get TUInt32 t1 (key_of "a") h1 = Some (Some (VUInt32 1))
    ∧ Remove t1 long_key h1 = Some (t1, h1).
Proof.
  rewrite long_key_eq. apply Put_long_gen.
  - rewrite length_replicate. lia.
  - rewrite last_cons_cons. apply last_zeros.
Qed.
